(** * Tic-tac-toe service: game-state engine of [main.py]

    A shallow embedding of the game logic of the FastAPI application
    ([check_winner], [create_new_game], [new_game], [get_game],
    [make_move]) and the properties of it that the specification states.

    Python values are modelled as the code has them: a board is a
    [list string] whose cells are [""], ["X"] or ["O"] in every game
    the service creates (the type itself allows any string, as
    [List[str]] does); the process-wide dictionary [games] is a finite
    map from identifiers to game records; an exception is an explicit
    outcome next to the final state of the dictionary. *)

From stdpp Require Import base strings list gmap fin_maps pretty.
From Stdlib Require Import ZArith Lia Ascii.

Local Open Scope string_scope.
Local Open Scope list_scope.
Local Open Scope Z_scope.

(** ** Exceptions and results *)

(** The two exceptions the engine can raise: the [HTTPException] the
    handlers raise themselves, and the [IndexError] of a list access
    out of range. *)
Inductive exn : Type :=
  | HTTPException (status_code : Z) (detail : string)
  | IndexError.

Inductive result (A : Type) : Type :=
  | Returns (a : A)
  | Raises (e : exn).
Arguments Returns {A} a.
Arguments Raises {A} e.

#[global] Instance result_ret : MRet result := fun _ a => Returns a.
#[global] Instance result_bind : MBind result := fun _ _ k r =>
  match r with
  | Returns a => k a
  | Raises e => Raises e
  end.
#[global] Instance result_fmap : FMap result := fun _ _ f r =>
  match r with
  | Returns a => Returns (f a)
  | Raises e => Raises e
  end.

(** The failure kinds of the specification, and how the adapter's
    exceptions map onto them: 404 is [NotFound]; a 400 is
    [InvalidArgument] when it reports a malformed position and
    [InvalidState] when it reports a violated game rule. *)
Inductive failure : Type := NotFound | InvalidArgument | InvalidState.

Definition failure_of (e : exn) : option failure :=
  match e with
  | HTTPException 404 _ => Some NotFound
  | HTTPException 400 d =>
      if String.eqb d "Invalid position" then Some InvalidArgument
      else Some InvalidState
  | _ => None
  end.

(** ** Python list access *)

(** [l[i]] for a Python integer [i]: a negative index counts from the
    end, and an index outside the list raises [IndexError]. *)
Definition norm_index {A} (l : list A) (i : Z) : Z :=
  if i <? 0 then i + Z.of_nat (length l) else i.

Definition getitem {A} (l : list A) (i : Z) : result A :=
  let j := norm_index l i in
  if j <? 0 then Raises IndexError
  else match l !! Z.to_nat j with
       | Some x => Returns x
       | None => Raises IndexError
       end.

(** [l[i] = x]: the updated list, or [IndexError]. *)
Definition setitem {A} (l : list A) (i : Z) (x : A) : result (list A) :=
  let j := norm_index l i in
  if j <? 0 then Raises IndexError
  else if (Z.to_nat j <? length l)%nat then Returns (<[Z.to_nat j := x]> l)
  else Raises IndexError.

(** ** Data model *)

(** [datetime.now()] is an input of the model: a point in time. *)
Definition datetime : Type := Z.

Record GameState : Type := mkGameState {
  board : list string;
  current_player : string;
  winner : option string;
  game_over : bool;
  created_at : datetime
}.

Record MoveRequest : Type := mkMoveRequest {
  game_id : string;
  position : Z;
  player : string
}.

Record GameResponse : Type := mkGameResponse {
  resp_game_id : string;
  resp_board : list string;
  resp_current_player : string;
  resp_winner : option string;
  resp_game_over : bool;
  resp_message : string
}.

(** ** [check_winner] *)

Definition winning_combinations : list (Z * Z * Z) :=
  [ (0, 1, 2); (3, 4, 5); (6, 7, 8);
    (0, 3, 6); (1, 4, 7); (2, 5, 8);
    (0, 4, 8); (2, 4, 6) ].

(** The condition of the loop body,
    [board[c0] == board[c1] == board[c2] and board[c0] != ''],
    with Python's evaluation order: the chained comparison reads
    [board[c2]] only when the first two cells are equal, and the
    right operand of [and] only when the chain holds. *)
Definition combo_wins (board : list string) (combo : Z * Z * Z) : result bool :=
  let '(c0, c1, c2) := combo in
  x ← getitem board c0;
  y ← getitem board c1;
  if negb (String.eqb x y) then mret false
  else
    z ← getitem board c2;
    if negb (String.eqb y z) then mret false
    else
      x' ← getitem board c0;
      mret (negb (String.eqb x' "")).

(** The [for] loop over the combinations; [None] when it runs to its
    end without returning. *)
Fixpoint scan_combinations (board : list string) (combos : list (Z * Z * Z))
  : result (option string) :=
  match combos with
  | [] => mret None
  | combo :: rest =>
      w ← combo_wins board combo;
      if (w : bool) then s ← getitem board (combo.1.1); mret (Some s)
      else scan_combinations board rest
  end.

(** ['' not in board] *)
Definition no_empty_cell (board : list string) : bool :=
  negb (existsb (String.eqb "") board).

Definition check_winner (board : list string) : result (option string) :=
  r ← scan_combinations board winning_combinations;
  match r with
  | Some s => mret (Some s)
  | None => if no_empty_cell board then mret (Some "tie") else mret None
  end.

(** ** [create_new_game] and the handlers *)

Definition create_new_game (now : datetime) : GameState :=
  {| board := replicate 9 "";
     current_player := "X";
     winner := None;
     game_over := false;
     created_at := now |}.

Definition response_of (id : string) (game : GameState) (message : string)
  : GameResponse :=
  {| resp_game_id := id;
     resp_board := board game;
     resp_current_player := current_player game;
     resp_winner := winner game;
     resp_game_over := game_over game;
     resp_message := message |}.

(** [new_game]: [ts] is the value of [int(datetime.now().timestamp())]
    read for the identifier, [now] the later reading stored in the
    game. The identifier is [f"game_{len(games) + 1}_{ts}"]. *)
Definition new_game_id (games : gmap string GameState) (ts : Z) : string :=
  "game_" +:+ pretty (Z.of_nat (size games) + 1) +:+ "_" +:+ pretty ts.

Definition new_game (ts : Z) (now : datetime) (games : gmap string GameState)
  : result GameResponse * gmap string GameState :=
  let id := new_game_id games ts in
  let game := create_new_game now in
  (Returns (response_of id game "New game created!"), <[id := game]> games).

Definition get_game (id : string) (games : gmap string GameState)
  : result GameResponse * gmap string GameState :=
  match games !! id with
  | None => (Raises (HTTPException 404 "Game not found"), games)
  | Some game => (Returns (response_of id game "Game state retrieved"), games)
  end.

(** Truth value of an [Optional[str]] in a condition: [None] and the
    empty string are false. *)
Definition truthy (w : option string) : bool :=
  match w with
  | None => false
  | Some s => negb (String.eqb s "")
  end.

(** ['O' if p == 'X' else 'X'] *)
Definition other_player (p : string) : string :=
  if String.eqb p "X" then "O" else "X".

(** The part of [make_move] after the five checks. The game object is
    shared with the dictionary, so every assignment to one of its
    fields is a write into [games] at the request's key; the write of
    the cell happens before [check_winner] runs, and stays if that
    call raises. *)
Definition apply_checked_move (move : MoveRequest) (game : GameState)
    (games : gmap string GameState)
  : result GameResponse * gmap string GameState :=
  match setitem (board game) (position move) (player move) with
  | Raises e => (Raises e, games)
  | Returns b =>
      let game1 :=
        {| board := b; current_player := current_player game;
           winner := winner game; game_over := game_over game;
           created_at := created_at game |} in
      let games1 := <[game_id move := game1]> games in
      match check_winner b with
      | Raises e => (Raises e, games1)
      | Returns w =>
          if truthy w then
            let game2 :=
              {| board := b; current_player := current_player game;
                 winner := w; game_over := true;
                 created_at := created_at game |} in
            let message :=
              if bool_decide (w = Some "tie") then "It's a tie!"
              else "Player " +:+ default "" w +:+ " wins!" in
            (Returns (response_of (game_id move) game2 message),
             <[game_id move := game2]> games)
          else
            let game2 :=
              {| board := b;
                 current_player := other_player (current_player game);
                 winner := winner game; game_over := game_over game;
                 created_at := created_at game |} in
            let message := "Player " +:+ current_player game2 +:+ "'s turn" in
            (Returns (response_of (game_id move) game2 message),
             <[game_id move := game2]> games)
      end
  end.

Definition make_move (move : MoveRequest) (games : gmap string GameState)
  : result GameResponse * gmap string GameState :=
  match games !! game_id move with
  | None => (Raises (HTTPException 404 "Game not found"), games)
  | Some game =>
      if game_over game then
        (Raises (HTTPException 400 "Game is already over"), games)
      else if (position move <? 0) || (position move >? 8) then
        (Raises (HTTPException 400 "Invalid position"), games)
      else
        match getitem (board game) (position move) with
        | Raises e => (Raises e, games)
        | Returns cell =>
            if negb (String.eqb cell "") then
              (Raises (HTTPException 400 "Position already taken"), games)
            else if negb (String.eqb (player move) (current_player game)) then
              (Raises (HTTPException 400 "Not your turn"), games)
            else apply_checked_move move game games
        end
  end.

(** ** Runs of the service *)

(** One request to the service, with the clock readings it makes. *)
Inductive request : Type :=
  | NewGame (ts : Z) (now : datetime)
  | GetGame (id : string)
  | MakeMove (move : MoveRequest).

Definition handle (r : request) (games : gmap string GameState)
  : result GameResponse * gmap string GameState :=
  match r with
  | NewGame ts now => new_game ts now games
  | GetGame id => get_game id games
  | MakeMove move => make_move move games
  end.

(** The dictionary after a sequence of requests, oldest first. *)
Definition run (rs : list request) (games : gmap string GameState)
  : gmap string GameState :=
  foldl (fun g r => (handle r g).2) games rs.

(** A dictionary the service can be in: it starts empty. *)
Definition reachable (games : gmap string GameState) : Prop :=
  ∃ rs, games = run rs ∅.

(** ** Reading a well-formed board *)

(** The cell at an index of the grid; the empty cell outside it. *)
Definition cell (b : list string) (i : Z) : string :=
  default "" (b !! Z.to_nat i).

(** A line is won when its three cells are equal and not empty. *)
Definition line_won (b : list string) (t : Z * Z * Z) : bool :=
  String.eqb (cell b t.1.1) (cell b t.1.2)
  && String.eqb (cell b t.1.2) (cell b t.2)
  && negb (String.eqb (cell b t.1.1) "").

(** A line is filled with the symbol [s]. *)
Definition line_filled (b : list string) (t : Z * Z * Z) (s : string) : Prop :=
  cell b t.1.1 = s ∧ cell b t.1.2 = s ∧ cell b t.2 = s.

Definition on_grid (t : Z * Z * Z) : Prop :=
  (0 ≤ t.1.1 < 9) ∧ (0 ≤ t.1.2 < 9) ∧ (0 ≤ t.2 < 9).

(** What [check_winner] computes on a 9-cell board, as a total
    function. *)
Definition outcome (b : list string) : option string :=
  match find (line_won b) winning_combinations with
  | Some t => Some (cell b t.1.1)
  | None => if no_empty_cell b then Some "tie" else None
  end.

(** ** Well-formed games *)

(** Number of cells of a board that hold the symbol [s]. *)
Fixpoint count_cells (s : string) (b : list string) : Z :=
  match b with
  | [] => 0
  | c :: rest => (if String.eqb c s then 1 else 0) + count_cells s rest
  end.

(** The request passes the four checks [make_move] makes on a game. *)
Definition legal (g : GameState) (move : MoveRequest) : Prop :=
  game_over g = false
  ∧ 0 ≤ position move ≤ 8
  ∧ board g !! Z.to_nat (position move) = Some ""
  ∧ player move = current_player g.

(** The game after a legal move of [pl] into cell [p] of a 9-cell
    board. *)
Definition place (g : GameState) (p : Z) (pl : string) : GameState :=
  let b := <[Z.to_nat p := pl]> (board g) in
  match outcome b with
  | Some w =>
      {| board := b; current_player := current_player g;
         winner := Some w; game_over := true; created_at := created_at g |}
  | None =>
      {| board := b; current_player := other_player (current_player g);
         winner := winner g; game_over := game_over g;
         created_at := created_at g |}
  end.

(** The invariant of a game of the service. *)
Record game_wf (g : GameState) : Prop := {
  wf_length : length (board g) = 9%nat;
  wf_cells : Forall (λ c, c = "" ∨ c = "X" ∨ c = "O") (board g);
  wf_player : current_player g = "X" ∨ current_player g = "O";
  wf_over : game_over g = true ↔ winner g ≠ None;
  wf_running : game_over g = false → outcome (board g) = None;
  wf_turn :
    game_over g = false →
    count_cells "X" (board g) - count_cells "O" (board g)
    = if String.eqb (current_player g) "X" then 0 else 1;
  wf_diff :
    0 ≤ count_cells "X" (board g) - count_cells "O" (board g) ≤ 1;
  wf_final :
    game_over g = true →
    winner g = outcome (board g)
    ∧ (winner g = Some "tie" ∨ winner g = Some (current_player g))
}.

Definition games_wf (games : gmap string GameState) : Prop :=
  ∀ id g, games !! id = Some g → game_wf g.

(** Every key was made by [new_game] when the dictionary was smaller. *)
Definition keys_wf (games : gmap string GameState) : Prop :=
  ∀ id, is_Some (games !! id) →
    ∃ (n ts : Z), 1 ≤ n ≤ Z.of_nat (size games)
            ∧ id = "game_" +:+ pretty n +:+ "_" +:+ pretty ts.

(** How a game may differ from an earlier state of itself: a finished
    game is frozen, and a filled cell keeps its symbol. *)
Definition game_evolves (g g' : GameState) : Prop :=
  (game_over g = true → g' = g)
  ∧ (∀ i c, board g !! i = Some c → c ≠ "" → board g' !! i = Some c).

Definition games_evolve (games games' : gmap string GameState) : Prop :=
  ∀ id g, games !! id = Some g →
    ∃ g', games' !! id = Some g' ∧ game_evolves g g'.


(** A string without the separator of the identifiers. *)
Fixpoint no_underscore (s : string) : Prop :=
  match s with
  | EmptyString => True
  | String c rest => c ≠ "_"%char ∧ no_underscore rest
  end.

(** The two fields that record the end of a game agree. *)
Definition over_iff_winner (g : GameState) : Prop :=
  winner g ≠ None ↔ game_over g = true.

(** The game of the examples: it is created first, at second
    1700000000. *)
Definition demo_id : string := "game_1_1700000000".

Definition demo_moves (ms : list (Z * string)) : list request :=
  NewGame 1700000000 0
  :: map (λ m, MakeMove (mkMoveRequest demo_id m.1 m.2)) ms.

(** Number of [new_game] requests in a run. *)
Definition count_new_games (rs : list request) : nat :=
  length (List.filter (λ r, match r with NewGame _ _ => true | _ => false end) rs).

(** The message [make_move] builds, read off the game it returns: the
    tie, the win of the recorded winner, or the turn of the player to
    move. *)
Definition status_message (g : GameState) : string :=
  if game_over g then
    if bool_decide (winner g = Some "tie") then "It's a tie!"
    else "Player " +:+ default "" (winner g) +:+ " wins!"
  else "Player " +:+ current_player g +:+ "'s turn".

(** The fields of a response that describe the game. *)
Definition same_state (r r' : GameResponse) : Prop :=
  resp_game_id r = resp_game_id r'
  ∧ resp_board r = resp_board r'
  ∧ resp_current_player r = resp_current_player r'
  ∧ resp_winner r = resp_winner r'
  ∧ resp_game_over r = resp_game_over r'.

(** Every filled line of the board belongs to the player who moved
    last, and the game is over. *)
Definition lines_agree (g : GameState) : Prop :=
  ∀ t s, t ∈ winning_combinations → s ≠ "" → line_filled (board g) t s →
         game_over g = true ∧ s = current_player g.

(** * Properties *)

Lemma winning_combinations_on_grid : Forall on_grid winning_combinations.
Proof. unfold winning_combinations, on_grid. repeat constructor; simpl; lia. Qed.

Section Board.

Variable b : list string.
Hypothesis b_len : length b = 9%nat.

Lemma getitem_cell (i : Z) : 0 ≤ i < 9 → getitem b i = Returns (cell b i).
Proof.
  intros Hi. unfold getitem, norm_index, cell.
  destruct (Z.ltb_spec i 0); [lia|].
  destruct (Z.ltb_spec i 0); [lia|].
  destruct (b !! Z.to_nat i) eqn:E; [done|].
  apply lookup_ge_None in E. lia.
Qed.

Lemma combo_wins_line_won (t : Z * Z * Z) :
  on_grid t → combo_wins b t = Returns (line_won b t).
Proof.
  destruct t as [[c0 c1] c2]. intros (H0 & H1 & H2); simpl in *.
  unfold combo_wins, line_won; cbn [fst snd].
  rewrite !getitem_cell by done. cbn.
  destruct (String.eqb (cell b c0) (cell b c1)); cbn; [|done].
  by destruct (String.eqb (cell b c1) (cell b c2)).
Qed.

Lemma scan_combinations_find (combos : list (Z * Z * Z)) :
  Forall on_grid combos →
  scan_combinations b combos
  = Returns (match find (line_won b) combos with
             | Some t => Some (cell b t.1.1)
             | None => None
             end).
Proof.
  induction 1 as [|t rest Ht _ IH]; [done|].
  cbn [scan_combinations find]. rewrite combo_wins_line_won by done. cbn.
  destruct (line_won b t); [|exact IH].
  destruct Ht as (H0 & _). by rewrite getitem_cell.
Qed.

Lemma check_winner_outcome : check_winner b = Returns (outcome b).
Proof.
  unfold check_winner, outcome.
  rewrite scan_combinations_find by apply winning_combinations_on_grid.
  unfold mbind, result_bind.
  destruct (find (line_won b) winning_combinations); [reflexivity|].
  by destruct (no_empty_cell b).
Qed.

End Board.

Lemma find_first {A} (f : A → bool) (pre : list A) (t : A) (post : list A) :
  f t = true → (∀ t', t' ∈ pre → f t' = false) →
  find f (pre ++ t :: post) = Some t.
Proof.
  intros Ht. induction pre as [|a pre IH]; intros Hpre; simpl.
  - by rewrite Ht.
  - rewrite (Hpre a) by left. apply IH. intros t' Hin. apply Hpre. by right.
Qed.

Lemma find_nowhere {A} (f : A → bool) (l : list A) :
  (∀ t, t ∈ l → f t = false) → find f l = None.
Proof.
  induction l as [|a l IH]; intros Hl; simpl; [done|].
  rewrite (Hl a) by left. apply IH. intros t Hin. apply Hl. by right.
Qed.

Lemma find_somewhere {A} (f : A → bool) (l : list A) (t : A) :
  find f l = Some t →
  ∃ pre post, l = pre ++ t :: post ∧ f t = true
              ∧ ∀ t', t' ∈ pre → f t' = false.
Proof.
  revert t. induction l as [|a l IH]; intros t; simpl; [done|].
  destruct (f a) eqn:Ha.
  - intros [= <-]. exists [], l. split_and!; [done..|]. by intros t' ?%elem_of_nil.
  - intros (pre & post & -> & Ht & Hpre)%IH.
    exists (a :: pre), post. split_and!; [done..|].
    intros t' [->|Hin]%elem_of_cons; auto.
Qed.

Lemma first_split_cases {A} (f : A → bool) (pre : list A) t post pre0 t0 post0 :
  pre ++ t :: post = pre0 ++ t0 :: post0 →
  f t = true → (∀ t', t' ∈ pre0 → f t' = false) →
  t0 = t ∨ t0 ∈ pre.
Proof.
  intros Heq Ht. revert pre0 Heq.
  induction pre as [|a pre IH]; intros [|a0 pre0] Heq Hpre0; simpl in Heq.
  - injection Heq as -> _. by left.
  - injection Heq as -> _. rewrite Hpre0 in Ht by left. done.
  - injection Heq as -> _. right. left.
  - injection Heq as -> Heq.
    destruct (IH pre0 Heq) as [?|?]; [|by left|right; by right].
    intros t' Hin. apply Hpre0. by right.
Qed.

Lemma no_empty_cell_true (b : list string) : no_empty_cell b = true ↔ "" ∉ b.
Proof.
  unfold no_empty_cell. rewrite negb_true_iff.
  induction b as [|c b IH]; simpl.
  - split; [|done]. intros _ ?%elem_of_nil. done.
  - rewrite not_elem_of_cons, orb_false_iff, IH.
    destruct c; intuition (done || congruence).
Qed.

Lemma line_won_filled (b : list string) (t : Z * Z * Z) :
  line_won b t = true ↔ ∃ s, s ≠ "" ∧ line_filled b t s.
Proof.
  unfold line_won, line_filled.
  rewrite !andb_true_iff, negb_true_iff, !String.eqb_eq, String.eqb_neq.
  split.
  - intros [[H1 H2] H3]. exists (cell b t.1.1). split_and!; congruence.
  - intros (s & Hs & H1 & H2 & H3). split_and!; congruence.
Qed.

(** C1. On every 9-cell board [check_winner] scans the eight lines
    rows [0,1,2] [3,4,5] [6,7,8], columns [0,3,6] [1,4,7] [2,5,8],
    diagonals [0,4,8] [2,4,6], in this order, and returns the symbol of
    the first line whose three cells are equal and not empty; when no
    line is won it returns the tie outcome (the string ['tie']) if no
    cell is empty, and [None] otherwise. It never raises. *)
Theorem check_winner_spec (b : list string) :
  length b = 9%nat →
  winning_combinations
  = [ (0, 1, 2); (3, 4, 5); (6, 7, 8); (0, 3, 6); (1, 4, 7); (2, 5, 8);
      (0, 4, 8); (2, 4, 6) ]
  ∧ (∀ pre t post,
       winning_combinations = pre ++ t :: post →
       line_won b t = true →
       (∀ t', t' ∈ pre → line_won b t' = false) →
       check_winner b = Returns (Some (cell b t.1.1)))
  ∧ ((∀ t, t ∈ winning_combinations → line_won b t = false) →
     "" ∉ b → check_winner b = Returns (Some "tie"))
  ∧ ((∀ t, t ∈ winning_combinations → line_won b t = false) →
     "" ∈ b → check_winner b = Returns None).
Proof.
  intros Hlen. rewrite check_winner_outcome by done. unfold outcome.
  split_and!; [done|..].
  - intros pre t post -> Ht Hpre. by rewrite (find_first _ _ _ _ Ht Hpre).
  - intros Hnone Hfull. rewrite find_nowhere by done.
    apply no_empty_cell_true in Hfull. by rewrite Hfull.
  - intros Hnone Hempty. rewrite find_nowhere by done.
    destruct (no_empty_cell b) eqn:E; [|done].
    by apply no_empty_cell_true in E.
Qed.

Lemma check_winner_spec_witness :
  check_winner ["O"; "X"; ""; "O"; "X"; ""; "O"; ""; "X"]
  = Returns (Some "O").
Proof.
  destruct (check_winner_spec ["O"; "X"; ""; "O"; "X"; ""; "O"; ""; "X"] eq_refl)
    as (_ & Hfirst & _).
  apply (Hfirst [(0, 1, 2); (3, 4, 5); (6, 7, 8)] (0, 3, 6)
                [(1, 4, 7); (2, 5, 8); (0, 4, 8); (2, 4, 6)]).
  - reflexivity.
  - reflexivity.
  - intros t' Hin.
    repeat (apply elem_of_cons in Hin as [->|Hin]; [reflexivity|]).
    by apply elem_of_nil in Hin.
Defined.

(** C8 as stated fails: on a board with two filled lines of different
    symbols the later line's symbol is not returned. The second row of
    this board holds only [O], and [check_winner] returns [X]. *)
Lemma check_winner_full_line_counterexample :
  let b := ["X"; "X"; "X"; "O"; "O"; "O"; ""; ""; ""] in
  length b = 9%nat
  ∧ (3, 4, 5) ∈ winning_combinations
  ∧ "O" ≠ ""
  ∧ line_filled b (3, 4, 5) "O"
  ∧ check_winner b = Returns (Some "X")
  ∧ check_winner b ≠ Returns (Some "O").
Proof.
  split_and!; try done.
  unfold winning_combinations. set_solver.
Qed.

(** C8, amended. On a 9-cell board where a row, column or diagonal is
    filled with one non-empty symbol, [check_winner] returns that
    symbol provided no line earlier in the scan order is filled with a
    different symbol. *)
Theorem check_winner_full_line (b : list string) pre t post (s : string) :
  length b = 9%nat →
  winning_combinations = pre ++ t :: post →
  s ≠ "" →
  line_filled b t s →
  (∀ t' s', t' ∈ pre → s' ≠ "" → line_filled b t' s' → s' = s) →
  check_winner b = Returns (Some s).
Proof.
  intros Hlen Hsplit Hs Hfill Hsame.
  assert (line_won b t = true) as Hwon by (apply line_won_filled; eauto).
  rewrite check_winner_outcome by done. unfold outcome.
  destruct (find (line_won b) winning_combinations) as [t0|] eqn:Hfind.
  - f_equal. f_equal.
    apply find_somewhere in Hfind as (pre0 & post0 & Hsplit0 & Hwon0 & Hpre0).
    rewrite Hsplit in Hsplit0.
    destruct (first_split_cases (line_won b) _ _ _ _ _ _ Hsplit0 Hwon Hpre0)
      as [->|Hin].
    + by destruct Hfill.
    + apply line_won_filled in Hwon0 as (s0 & Hs0 & Hfill0).
      rewrite <-(Hsame t0 s0 Hin Hs0 Hfill0). by destruct Hfill0.
  - exfalso. rewrite Hsplit in Hfind.
    assert (line_won b t = false); [|congruence].
    clear -Hfind. induction pre as [|a pre IH]; simpl in Hfind.
    + by destruct (line_won b t).
    + destruct (line_won b a); [done|auto].
Qed.

Lemma check_winner_full_line_witness :
  check_winner ["X"; ""; "X"; "O"; "O"; "O"; ""; "X"; ""] = Returns (Some "O").
Proof.
  apply (check_winner_full_line _ [(0, 1, 2)] (3, 4, 5)
           [(6, 7, 8); (0, 3, 6); (1, 4, 7); (2, 5, 8); (0, 4, 8); (2, 4, 6)]);
    [reflexivity | reflexivity | discriminate | by repeat split |].
  intros t' s' Hin%list_elem_of_singleton Hs' (H0 & H1 & _). subst t'.
  cbv in H0, H1. congruence.
Defined.

(** ** The outcome of a board *)

Lemma outcome_not_empty (b : list string) : outcome b ≠ Some "".
Proof.
  unfold outcome.
  destruct (find (line_won b) winning_combinations) as [t|] eqn:E.
  - apply find_somewhere in E as (_ & _ & _ & Hwon & _).
    apply line_won_filled in Hwon as (s & Hs & <- & _). congruence.
  - by destruct (no_empty_cell b).
Qed.

Lemma truthy_outcome (b : list string) :
  truthy (outcome b) = match outcome b with Some _ => true | None => false end.
Proof.
  pose proof (outcome_not_empty b) as Hne.
  destruct (outcome b) as [w|]; [|done]. simpl.
  destruct (String.eqb_spec w ""); [congruence|done].
Qed.

(** ** Counting cells *)

Lemma count_cells_insert (s : string) (b : list string) (i : nat) (old v : string) :
  b !! i = Some old →
  count_cells s (<[i := v]> b)
  = count_cells s b - (if String.eqb old s then 1 else 0)
    + (if String.eqb v s then 1 else 0).
Proof.
  revert i. induction b as [|c b IH]; intros [|i] Hi; simplify_eq/=.
  - lia.
  - rewrite (IH i Hi). lia.
Qed.

Lemma count_cells_replicate_empty (s : string) (n : nat) :
  s ≠ "" → count_cells s (replicate n "") = 0.
Proof.
  intros Hs. induction n as [|n IH]; simpl; [done|].
  destruct s; [done|]. simpl. exact IH.
Qed.

(** ** The checks of [make_move] *)

Lemma setitem_insert (b : list string) (p : Z) (v : string) :
  length b = 9%nat → 0 ≤ p ≤ 8 →
  setitem b p v = Returns (<[Z.to_nat p := v]> b).
Proof.
  intros Hlen Hp. unfold setitem, norm_index.
  destruct (Z.ltb_spec p 0); [lia|].
  destruct (Z.ltb_spec p 0); [lia|].
  destruct (Nat.ltb_spec (Z.to_nat p) (length b)); [done|lia].
Qed.

Lemma make_move_unknown games move :
  games !! game_id move = None →
  make_move move games = (Raises (HTTPException 404 "Game not found"), games).
Proof. intros H. unfold make_move. by rewrite H. Qed.

Lemma make_move_finished games move g :
  games !! game_id move = Some g → game_over g = true →
  make_move move games
  = (Raises (HTTPException 400 "Game is already over"), games).
Proof. intros H Hover. unfold make_move. by rewrite H, Hover. Qed.

Lemma make_move_out_of_range games move g :
  games !! game_id move = Some g → game_over g = false →
  position move < 0 ∨ 8 < position move →
  make_move move games = (Raises (HTTPException 400 "Invalid position"), games).
Proof.
  intros H Hover Hpos. unfold make_move. rewrite H, Hover.
  destruct (Z.ltb_spec (position move) 0); [done|].
  destruct (Z.gtb_spec (position move) 8); [done|lia].
Qed.

Lemma make_move_in_range games move g :
  games !! game_id move = Some g → game_over g = false →
  0 ≤ position move ≤ 8 →
  make_move move games
  = match getitem (board g) (position move) with
    | Raises e => (Raises e, games)
    | Returns c =>
        if negb (String.eqb c "") then
          (Raises (HTTPException 400 "Position already taken"), games)
        else if negb (String.eqb (player move) (current_player g)) then
          (Raises (HTTPException 400 "Not your turn"), games)
        else apply_checked_move move g games
    end.
Proof.
  intros H Hover Hpos. unfold make_move. rewrite H, Hover.
  destruct (Z.ltb_spec (position move) 0); [lia|].
  destruct (Z.gtb_spec (position move) 8); [lia|done].
Qed.

Lemma getitem_lookup (b : list string) (p : Z) (c : string) :
  0 ≤ p → b !! Z.to_nat p = Some c → getitem b p = Returns c.
Proof.
  intros Hp Hc. unfold getitem, norm_index.
  destruct (Z.ltb_spec p 0); [lia|].
  destruct (Z.ltb_spec p 0); [lia|]. by rewrite Hc.
Qed.

Lemma make_move_occupied games move g c :
  games !! game_id move = Some g → game_over g = false →
  0 ≤ position move ≤ 8 →
  board g !! Z.to_nat (position move) = Some c → c ≠ "" →
  make_move move games
  = (Raises (HTTPException 400 "Position already taken"), games).
Proof.
  intros H Hover Hpos Hc Hne.
  rewrite (make_move_in_range _ _ _ H Hover Hpos).
  rewrite (getitem_lookup _ _ c) by (done || lia).
  by destruct (String.eqb_spec c "").
Qed.

Lemma make_move_wrong_turn games move g :
  games !! game_id move = Some g → game_over g = false →
  0 ≤ position move ≤ 8 →
  board g !! Z.to_nat (position move) = Some "" →
  player move ≠ current_player g →
  make_move move games = (Raises (HTTPException 400 "Not your turn"), games).
Proof.
  intros H Hover Hpos Hc Hne.
  rewrite (make_move_in_range _ _ _ H Hover Hpos).
  rewrite (getitem_lookup _ _ "") by (done || lia). simpl.
  by destruct (String.eqb_spec (player move) (current_player g)).
Qed.

Lemma apply_checked_move_place games move g :
  length (board g) = 9%nat → 0 ≤ position move ≤ 8 →
  ∃ msg,
    apply_checked_move move g games
    = (Returns (response_of (game_id move)
                  (place g (position move) (player move)) msg),
       <[game_id move := place g (position move) (player move)]> games).
Proof.
  intros Hlen Hpos. unfold apply_checked_move.
  rewrite setitem_insert by done.
  rewrite check_winner_outcome by (by rewrite length_insert).
  rewrite truthy_outcome. unfold place.
  destruct (outcome (<[Z.to_nat (position move) := player move]> (board g)));
    eauto.
Qed.

Lemma make_move_legal games move g :
  games !! game_id move = Some g → length (board g) = 9%nat →
  legal g move →
  ∃ msg,
    make_move move games
    = (Returns (response_of (game_id move)
                  (place g (position move) (player move)) msg),
       <[game_id move := place g (position move) (player move)]> games).
Proof.
  intros H Hlen (Hover & Hpos & Hc & Hpl).
  rewrite (make_move_in_range _ _ _ H Hover Hpos).
  rewrite (getitem_lookup _ _ "") by (done || lia). simpl.
  destruct (String.eqb_spec (player move) (current_player g)); [|done].
  by apply apply_checked_move_place.
Qed.

(** On a 9-cell board the request is either legal or rejected with a
    400 that leaves the dictionary as it was. *)
Lemma make_move_cases games move g :
  games !! game_id move = Some g → length (board g) = 9%nat →
  legal g move
  ∨ ∃ d, make_move move games = (Raises (HTTPException 400 d), games)
         ∧ d ∈ ["Game is already over"; "Invalid position";
                "Position already taken"; "Not your turn"].
Proof.
  intros H Hlen.
  destruct (game_over g) eqn:Hover.
  { right. eexists. split; [by eapply make_move_finished|by repeat constructor]. }
  destruct (decide (0 ≤ position move ≤ 8)) as [Hpos|Hpos]; last first.
  { right. eexists. split; [eapply make_move_out_of_range; eauto; lia|].
    by repeat constructor. }
  destruct (board g !! Z.to_nat (position move)) as [c|] eqn:Hc; last first.
  { apply lookup_ge_None in Hc. lia. }
  destruct (decide (c = "")) as [->|Hne]; last first.
  { right. eexists. split; [by eapply make_move_occupied|by repeat constructor]. }
  destruct (decide (player move = current_player g)) as [Hpl|Hpl]; last first.
  { right. eexists. split; [by eapply make_move_wrong_turn|by repeat constructor]. }
  by left.
Qed.

(** ** A legal move keeps a game well formed *)

Lemma cell_insert_eq (b : list string) (p : Z) (v : string) :
  (Z.to_nat p < length b)%nat → cell (<[Z.to_nat p := v]> b) p = v.
Proof. intros Hp. unfold cell. by rewrite list_lookup_insert_eq. Qed.

Lemma cell_insert_ne (b : list string) (p i : Z) (v : string) :
  0 ≤ p → 0 ≤ i → i ≠ p → cell (<[Z.to_nat p := v]> b) i = cell b i.
Proof.
  intros Hp Hi Hne. unfold cell. rewrite list_lookup_insert_ne; [done|lia].
Qed.

Lemma outcome_None_no_line (b : list string) (t : Z * Z * Z) :
  outcome b = None → t ∈ winning_combinations → line_won b t = false.
Proof.
  unfold outcome. intros Hout Hin.
  destruct (find (line_won b) winning_combinations) eqn:E; [done|].
  destruct (line_won b t) eqn:Ht; [|done].
  apply list_elem_of_In in Hin.
  by rewrite (find_none _ _ E t Hin) in Ht.
Qed.

(** A line won after a move into an empty cell, on a board with no won
    line before, passes through that cell and holds the mover's
    symbol. *)
Lemma new_line_is_movers (b : list string) (p : Z) (pl w : string) :
  length b = 9%nat → 0 ≤ p ≤ 8 →
  outcome b = None →
  outcome (<[Z.to_nat p := pl]> b) = Some w →
  w = "tie" ∨ w = pl.
Proof.
  intros Hlen Hp Hb. unfold outcome at 1.
  set (b' := <[Z.to_nat p := pl]> b).
  destruct (find (line_won b') winning_combinations) as [t|] eqn:E; last first.
  { destruct (no_empty_cell b'); [|done]. intros [= <-]. by left. }
  intros [= <-]. right.
  apply find_somewhere in E as (pre & post & Hsplit & Hwon & _).
  assert (t ∈ winning_combinations) as Hin.
  { rewrite Hsplit. apply elem_of_app. right. left. }
  pose proof (outcome_None_no_line b t Hb Hin) as Hold.
  destruct (proj1 (Forall_forall _ _) winning_combinations_on_grid t Hin)
    as (H0 & H1 & H2).
  apply line_won_filled in Hwon as (s & Hs & Hf0 & Hf1 & Hf2).
  assert (cell b' p = pl) as Hcp by (apply cell_insert_eq; lia).
  destruct (decide (t.1.1 = p)) as [E0|N0]; [congruence|].
  destruct (decide (t.1.2 = p)) as [E1|N1]; [congruence|].
  destruct (decide (t.2 = p)) as [E2|N2]; [congruence|].
  exfalso. unfold b' in Hf0, Hf1, Hf2.
  rewrite cell_insert_ne in Hf0, Hf1, Hf2 by lia.
  assert (line_won b t = true); [|congruence].
  apply line_won_filled. by exists s.
Qed.

Lemma place_wf (g : GameState) (move : MoveRequest) :
  game_wf g → legal g move →
  game_wf (place g (position move) (player move)).
Proof.
  intros [Hlen Hcells Hpl Hover Hrun Hturn Hdiff Hfin] (Hno & Hpos & Hc & Hmv).
  specialize (Hrun Hno). specialize (Hturn Hno).
  assert (winner g = None) as Hw.
  { destruct (winner g) eqn:E; [|done].
    assert (game_over g = true) by (by apply Hover). congruence. }
  pose proof (count_cells_insert "X" _ _ _ (player move) Hc) as HX.
  pose proof (count_cells_insert "O" _ _ _ (player move) Hc) as HO.
  simpl in HX, HO.
  assert (length (<[Z.to_nat (position move) := player move]> (board g)) = 9%nat)
    as Hlen' by (by rewrite length_insert).
  assert (Forall (λ c, c = "" ∨ c = "X" ∨ c = "O")
            (<[Z.to_nat (position move) := player move]> (board g))) as Hcells'.
  { apply Forall_insert; [done|]. right. by rewrite Hmv. }
  unfold place.
  destruct (outcome (<[Z.to_nat (position move) := player move]> (board g)))
    as [w|] eqn:Hout.
  - split; simpl; try done.
    + rewrite Hmv in HX, HO |- *.
      destruct Hpl as [E|E]; rewrite E in *; cbn in HX, HO, Hturn |- *; lia.
    + intros _. split; [done|].
      destruct (new_line_is_movers _ _ _ _ Hlen Hpos Hrun Hout) as [-> | ->];
        [by left|right; by rewrite Hmv].
  - split; simpl; try done.
    + unfold other_player. destruct (String.eqb _ _); auto.
    + intros _. unfold other_player.
      rewrite Hmv in HX, HO |- *.
      destruct Hpl as [E|E]; rewrite E in *; cbn in HX, HO, Hturn |- *; lia.
    + rewrite Hmv in HX, HO |- *.
      destruct Hpl as [E|E]; rewrite E in *; cbn in HX, HO, Hturn |- *; lia.
    + congruence.
Qed.

Lemma place_evolves (g : GameState) (move : MoveRequest) :
  legal g move →
  game_evolves g (place g (position move) (player move)).
Proof.
  intros (Hno & Hpos & Hc & Hmv). split; [congruence|].
  intros i c Hi Hne.
  assert (board (place g (position move) (player move)) !! i = 
          <[Z.to_nat (position move) := player move]> (board g) !! i) as ->.
  { unfold place. by destruct (outcome _). }
  rewrite list_lookup_insert_ne; [done|]. intros <-. congruence.
Qed.

Lemma create_new_game_wf (now : datetime) : game_wf (create_new_game now).
Proof.
  split; simpl; try done.
  - by repeat constructor.
  - by left.
Qed.

(** ** Identifiers are never reused *)

Lemma pretty_N_char_no_underscore (x : N) : pretty_N_char x ≠ "_"%char.
Proof. unfold pretty_N_char. by repeat case_match. Qed.

Lemma pretty_N_go_no_underscore (x : N) (s : string) :
  no_underscore s → no_underscore (pretty_N_go x s).
Proof.
  revert s. induction (N.lt_wf_0 x) as [x _ IH]; intros s Hs.
  destruct (decide (x = 0)%N) as [->|Hx].
  - by rewrite pretty_N_go_0.
  - rewrite pretty_N_go_step by lia. apply IH.
    + apply N.div_lt; lia.
    + split; [apply pretty_N_char_no_underscore|done].
Qed.

Lemma pretty_Z_no_underscore (n : Z) : 0 ≤ n → no_underscore (pretty n).
Proof.
  intros Hn. destruct n as [|q|q]; [done| |lia].
  unfold pretty, pretty_Z, pretty, pretty_positive, pretty, pretty_N.
  case_decide; [done|]. by apply pretty_N_go_no_underscore.
Qed.

Lemma split_at_underscore (u u' s s' : string) :
  no_underscore u → no_underscore u' →
  u +:+ String "_" s = u' +:+ String "_" s' → u = u'.
Proof.
  revert u'. induction u as [|c u IH]; intros [|c' u'] Hu Hu' Heq;
    simpl in *.
  - done.
  - injection Heq as <- _. by destruct Hu' as [? _].
  - injection Heq as -> _. by destruct Hu as [? _].
  - injection Heq as -> Heq. f_equal.
    apply IH; [by destruct Hu|by destruct Hu'|done].
Qed.

Lemma game_key_inj (n n' : Z) (t t' : string) :
  0 ≤ n → 0 ≤ n' →
  "game_" +:+ pretty n +:+ "_" +:+ t = "game_" +:+ pretty n' +:+ "_" +:+ t' →
  n = n'.
Proof.
  intros Hn Hn' Heq. simpl in Heq. injection Heq as Heq.
  apply (inj pretty).
  eapply split_at_underscore; [..|exact Heq];
    by apply pretty_Z_no_underscore.
Qed.

Lemma new_game_id_fresh (games : gmap string GameState) (ts : Z) :
  keys_wf games → games !! new_game_id games ts = None.
Proof.
  intros Hkeys.
  destruct (games !! new_game_id games ts) as [g|] eqn:E; [|done].
  destruct (Hkeys (new_game_id games ts)) as (n & ts' & Hn & Heq); [by eexists|].
  unfold new_game_id in Heq. apply game_key_inj in Heq; lia.
Qed.

(** ** One request *)

Lemma game_evolves_refl (g : GameState) : game_evolves g g.
Proof. by split. Qed.

Lemma game_evolves_trans (g1 g2 g3 : GameState) :
  game_evolves g1 g2 → game_evolves g2 g3 → game_evolves g1 g3.
Proof.
  intros [Ho1 Hc1] [Ho2 Hc2]. split.
  - intros Hover. specialize (Ho1 Hover). subst g2. by apply Ho2.
  - intros i c Hi Hne. apply Hc2; [|done]. by apply Hc1.
Qed.

Lemma games_evolve_refl (games : gmap string GameState) :
  games_evolve games games.
Proof. intros id g Hg. exists g. split; [done|apply game_evolves_refl]. Qed.

Lemma games_evolve_trans (m1 m2 m3 : gmap string GameState) :
  games_evolve m1 m2 → games_evolve m2 m3 → games_evolve m1 m3.
Proof.
  intros H12 H23 id g1 Hg1.
  destruct (H12 id g1 Hg1) as (g2 & Hg2 & He12).
  destruct (H23 id g2 Hg2) as (g3 & Hg3 & He23).
  exists g3. split; [done|by eapply game_evolves_trans].
Qed.

(** What a move request does to the dictionary of a running service:
    nothing, or the legal move on the game it names. *)
Lemma make_move_state (games : gmap string GameState) (move : MoveRequest) :
  games_wf games →
  (∃ e, make_move move games = (Raises (HTTPException e.1 e.2), games))
  ∨ ∃ g msg,
      games !! game_id move = Some g ∧ legal g move
      ∧ make_move move games
        = (Returns (response_of (game_id move)
                      (place g (position move) (player move)) msg),
           <[game_id move := place g (position move) (player move)]> games).
Proof.
  intros Hwf.
  destruct (games !! game_id move) as [g|] eqn:Hg.
  - pose proof (wf_length g (Hwf _ _ Hg)) as Hlen.
    destruct (make_move_cases games move g Hg Hlen) as [Hlegal|(d & Hd & _)].
    + right. destruct (make_move_legal games move g Hg Hlen Hlegal) as [msg ?].
      by exists g, msg.
    + left. by exists (400, d).
  - left. exists (404, "Game not found"). by apply make_move_unknown.
Qed.

Lemma handle_wf (r : request) (games : gmap string GameState) :
  games_wf games → games_wf (handle r games).2.
Proof.
  intros Hwf. destruct r as [ts now|id|move]; simpl.
  - intros id g [[_ <-]|[_ Hg]]%lookup_insert_Some.
    + apply create_new_game_wf.
    + by eapply Hwf.
  - unfold get_game. by destruct (games !! id).
  - destruct (make_move_state games move Hwf)
      as [[e ->]|(g & msg & Hg & Hlegal & ->)]; [done|]. simpl.
    intros id g' [[_ <-]|[_ Hg']]%lookup_insert_Some.
    + apply place_wf; [by eapply Hwf|done].
    + by eapply Hwf.
Qed.

Lemma handle_keys (r : request) (games : gmap string GameState) :
  games_wf games → keys_wf games → keys_wf (handle r games).2.
Proof.
  intros Hwf Hkeys. destruct r as [ts now|id|move]; simpl.
  - pose proof (new_game_id_fresh games ts Hkeys) as Hfresh.
    intros id Hid. rewrite map_size_insert_None by done.
    apply lookup_insert_is_Some in Hid as [<-|[_ Hid]].
    + exists (Z.of_nat (size games) + 1), ts. split; [lia|done].
    + destruct (Hkeys id Hid) as (n & ts' & Hn & ->).
      exists n, ts'. split; [lia|done].
  - unfold get_game. by destruct (games !! id).
  - destruct (make_move_state games move Hwf)
      as [[e ->]|(g & msg & Hg & Hlegal & ->)]; [done|]. simpl.
    intros id Hid. rewrite map_size_insert_Some by (by eexists).
    apply Hkeys.
    apply lookup_insert_is_Some in Hid as [<-|[_ Hid]]; [by eexists|done].
Qed.

Lemma handle_evolves (r : request) (games : gmap string GameState) :
  games_wf games → keys_wf games → games_evolve games (handle r games).2.
Proof.
  intros Hwf Hkeys. destruct r as [ts now|id|move]; simpl.
  - pose proof (new_game_id_fresh games ts Hkeys) as Hfresh.
    intros id g Hg. exists g. split; [|apply game_evolves_refl].
    rewrite lookup_insert_ne; [done|]. intros <-. congruence.
  - unfold get_game. destruct (games !! id); apply games_evolve_refl.
  - destruct (make_move_state games move Hwf)
      as [[e ->]|(g & msg & Hg & Hlegal & ->)]; [apply games_evolve_refl|].
    simpl. intros id g' Hg'.
    destruct (decide (game_id move = id)) as [<-|Hne].
    + rewrite lookup_insert_eq. eexists. split; [done|].
      assert (g' = g) as -> by congruence. by apply place_evolves.
    + rewrite lookup_insert_ne by done.
      exists g'. split; [done|apply game_evolves_refl].
Qed.

(** ** Runs *)

Lemma run_snoc (rs : list request) (r : request) (games : gmap string GameState) :
  run (rs ++ [r]) games = (handle r (run rs games)).2.
Proof. unfold run. by rewrite foldl_app. Qed.

Lemma run_app (rs rs' : list request) (games : gmap string GameState) :
  run (rs ++ rs') games = run rs' (run rs games).
Proof. unfold run. by rewrite foldl_app. Qed.

Lemma run_invariant (rs : list request) (games : gmap string GameState) :
  games_wf games → keys_wf games →
  games_wf (run rs games) ∧ keys_wf (run rs games)
  ∧ games_evolve games (run rs games).
Proof.
  intros Hwf Hkeys. induction rs as [|r rs IH] using rev_ind.
  - split_and!; [done..|apply games_evolve_refl].
  - destruct IH as (IHwf & IHkeys & IHev). rewrite run_snoc.
    split_and!.
    + by apply handle_wf.
    + by apply handle_keys.
    + eapply games_evolve_trans; [done|by apply handle_evolves].
Qed.

Lemma empty_wf : games_wf ∅ ∧ keys_wf ∅.
Proof.
  split.
  - intros id g Hg. by rewrite lookup_empty in Hg.
  - intros id [g Hg]. by rewrite lookup_empty in Hg.
Qed.

Lemma reachable_wf (games : gmap string GameState) :
  reachable games → games_wf games ∧ keys_wf games.
Proof.
  intros [rs ->]. destruct empty_wf as [H1 H2].
  destruct (run_invariant rs ∅ H1 H2) as (? & ? & _). done.
Qed.

(** * The claims about [make_move] *)

(** C2. [make_move] makes its five checks in this order, and the first
    one that fails decides the outcome: an unknown key is a 404
    ([NotFound]); then a finished game is a 400 "Game is already over"
    ([InvalidState]); then a position outside 0..8 is a 400 "Invalid
    position" ([InvalidArgument]); then an occupied cell is a 400
    "Position already taken" ([InvalidState]), whoever the player is;
    then a player who is not the current player is a 400 "Not your
    turn" ([InvalidState]). None of them changes the dictionary. *)
Theorem make_move_validation_order
    (games : gmap string GameState) (move : MoveRequest) :
  (games !! game_id move = None →
   make_move move games = (Raises (HTTPException 404 "Game not found"), games))
  ∧ (∀ g, games !! game_id move = Some g → game_over g = true →
       make_move move games
       = (Raises (HTTPException 400 "Game is already over"), games))
  ∧ (∀ g, games !! game_id move = Some g → game_over g = false →
       position move < 0 ∨ 8 < position move →
       make_move move games
       = (Raises (HTTPException 400 "Invalid position"), games))
  ∧ (∀ g c, games !! game_id move = Some g → game_over g = false →
       0 ≤ position move ≤ 8 →
       board g !! Z.to_nat (position move) = Some c → c ≠ "" →
       make_move move games
       = (Raises (HTTPException 400 "Position already taken"), games))
  ∧ (∀ g, games !! game_id move = Some g → game_over g = false →
       0 ≤ position move ≤ 8 →
       board g !! Z.to_nat (position move) = Some "" →
       player move ≠ current_player g →
       make_move move games
       = (Raises (HTTPException 400 "Not your turn"), games))
  ∧ failure_of (HTTPException 404 "Game not found") = Some NotFound
  ∧ failure_of (HTTPException 400 "Game is already over") = Some InvalidState
  ∧ failure_of (HTTPException 400 "Invalid position") = Some InvalidArgument
  ∧ failure_of (HTTPException 400 "Position already taken") = Some InvalidState
  ∧ failure_of (HTTPException 400 "Not your turn") = Some InvalidState.
Proof.
  split_and!; try reflexivity.
  - apply make_move_unknown.
  - apply make_move_finished.
  - apply make_move_out_of_range.
  - apply make_move_occupied.
  - apply make_move_wrong_turn.
Qed.

Lemma make_move_validation_order_witness :
  let games := run (demo_moves [(0, "X")]) ∅ in
  make_move (mkMoveRequest demo_id 0 "X") games
  = (Raises (HTTPException 400 "Position already taken"), games).
Proof.
  intros games.
  destruct (make_move_validation_order games (mkMoveRequest demo_id 0 "X"))
    as (_ & _ & _ & Htaken & _).
  apply (Htaken (mkGameState ["X"; ""; ""; ""; ""; ""; ""; ""; ""] "O" None false 0)
           "X").
  - reflexivity.
  - reflexivity.
  - simpl; lia.
  - reflexivity.
  - discriminate.
Defined.

Lemma setitem_lookup (b : list string) (p : Z) (c v : string) :
  0 ≤ p → b !! Z.to_nat p = Some c →
  setitem b p v = Returns (<[Z.to_nat p := v]> b).
Proof.
  intros Hp Hc. unfold setitem, norm_index.
  destruct (Z.ltb_spec p 0); [lia|].
  destruct (Z.ltb_spec p 0); [lia|].
  apply lookup_lt_Some in Hc.
  destruct (Nat.ltb_spec (Z.to_nat p) (length b)); [done|lia].
Qed.

(** C3. A move that passes the five checks and does not end the game
    ([check_winner] returns [None] on the updated board) writes the
    player into the cell, leaves every other cell as it was, and passes
    the turn: after a move by [X] the current player is [O], after a
    move by [O] it is [X]. The game stays unfinished. *)
Theorem make_move_passes_turn
    (games : gmap string GameState) (move : MoveRequest) (g : GameState) :
  games !! game_id move = Some g →
  legal g move →
  check_winner (<[Z.to_nat (position move) := player move]> (board g))
  = Returns None →
  ∃ g' msg,
    make_move move games
    = (Returns (response_of (game_id move) g' msg), <[game_id move := g']> games)
    ∧ board g' !! Z.to_nat (position move) = Some (player move)
    ∧ (∀ i, i ≠ Z.to_nat (position move) → board g' !! i = board g !! i)
    ∧ length (board g') = length (board g)
    ∧ (player move = "X" → current_player g' = "O")
    ∧ (player move = "O" → current_player g' = "X")
    ∧ winner g' = winner g
    ∧ game_over g' = false.
Proof.
  intros Hg (Hno & Hpos & Hc & Hmv) Hcheck.
  rewrite (make_move_in_range _ _ _ Hg Hno Hpos).
  rewrite (getitem_lookup _ _ "") by (done || lia). simpl.
  destruct (String.eqb_spec (player move) (current_player g)); [|done]. simpl.
  unfold apply_checked_move.
  rewrite (setitem_lookup _ _ "") by (done || lia).
  rewrite Hcheck. simpl.
  eexists _, _. split; [reflexivity|]. simpl.
  split_and!.
  - apply list_lookup_insert_eq. by apply lookup_lt_Some in Hc.
  - intros i Hi. by apply list_lookup_insert_ne.
  - apply length_insert.
  - intros HX. by rewrite <-Hmv, HX.
  - intros HO. by rewrite <-Hmv, HO.
  - done.
  - done.
Qed.

Lemma make_move_passes_turn_witness :
  let games := run (demo_moves [(4, "X")]) ∅ in
  ∃ g' msg,
    make_move (mkMoveRequest demo_id 0 "O") games
    = (Returns (response_of demo_id g' msg), <[demo_id := g']> games)
    ∧ board g' !! 0%nat = Some "O"
    ∧ current_player g' = "X".
Proof.
  intros games.
  destruct (make_move_passes_turn games (mkMoveRequest demo_id 0 "O")
              (mkGameState [""; ""; ""; ""; "X"; ""; ""; ""; ""] "O" None false 0))
    as (g' & msg & Hmove & Hcell & _ & _ & _ & HO & _).
  - reflexivity.
  - unfold legal; simpl; split_and!; (reflexivity || lia).
  - reflexivity.
  - exists g', msg. split_and!; [exact Hmove|exact Hcell|by apply HO].
Defined.

(** C4. A finished game stays finished: whatever requests follow
    (new games, reads, moves on any key), the game keeps every field
    it had when it ended, and each move on its key is rejected with the
    400 "Game is already over" ([InvalidState]) and changes nothing. *)
Theorem finished_game_is_frozen
    (rs0 rs : list request) (id : string) (g : GameState) (move : MoveRequest) :
  run rs0 ∅ !! id = Some g →
  game_over g = true →
  game_id move = id →
  run rs (run rs0 ∅) !! id = Some g
  ∧ make_move move (run rs (run rs0 ∅))
    = (Raises (HTTPException 400 "Game is already over"), run rs (run rs0 ∅))
  ∧ failure_of (HTTPException 400 "Game is already over") = Some InvalidState.
Proof.
  intros Hg Hover <-.
  destruct empty_wf as [Hwf0 Hkeys0].
  destruct (run_invariant rs0 ∅ Hwf0 Hkeys0) as (Hwf & Hkeys & _).
  destruct (run_invariant rs _ Hwf Hkeys) as (_ & _ & Hev).
  destruct (Hev _ _ Hg) as (g' & Hg' & Hfrozen & _).
  rewrite (Hfrozen Hover) in Hg'.
  split_and!; [done| |done].
  by eapply make_move_finished.
Qed.

Lemma finished_game_is_frozen_witness :
  let won := run (demo_moves [(0, "X"); (1, "O"); (4, "X"); (2, "O"); (8, "X")]) ∅ in
  let later :=
    run [MakeMove (mkMoveRequest demo_id 3 "O"); NewGame 1700000000 7;
         GetGame demo_id; MakeMove (mkMoveRequest demo_id 5 "X")] won in
  later !! demo_id
  = Some (mkGameState ["X"; "O"; "O"; ""; "X"; ""; ""; ""; "X"] "X" (Some "X") true 0)
  ∧ make_move (mkMoveRequest demo_id 6 "O") later
    = (Raises (HTTPException 400 "Game is already over"), later).
Proof.
  intros won later.
  destruct (finished_game_is_frozen
              (demo_moves [(0, "X"); (1, "O"); (4, "X"); (2, "O"); (8, "X")])
              [MakeMove (mkMoveRequest demo_id 3 "O"); NewGame 1700000000 7;
               GetGame demo_id; MakeMove (mkMoveRequest demo_id 5 "X")]
              demo_id
              (mkGameState ["X"; "O"; "O"; ""; "X"; ""; ""; ""; "X"] "X"
                 (Some "X") true 0)
              (mkMoveRequest demo_id 6 "O"))
    as (Hsame & Hfail & _).
  - vm_compute. reflexivity.
  - reflexivity.
  - reflexivity.
  - split; [exact Hsame|exact Hfail].
Defined.

(** A move request that fails on a running service leaves the
    dictionary as it was. *)
Lemma make_move_failure_changes_nothing
    (games : gmap string GameState) (move : MoveRequest) (e : exn) :
  games_wf games →
  (make_move move games).1 = Raises e → (make_move move games).2 = games.
Proof.
  intros Hwf Hfail.
  destruct (make_move_state games move Hwf)
    as [[e' Heq]|(g & msg & _ & _ & Heq)]; rewrite Heq in *; [done|].
  simpl in Hfail. discriminate.
Qed.

(** C5. On a running service no failing move request changes the
    dictionary; and once a move into a cell has succeeded, every later
    move request for the same cell of the same game fails with a 400
    of kind [InvalidState] (the cell is taken, or the game is over) and
    leaves the board, the current player, the winner and the
    game-over flag of every game as they were. *)
Theorem make_move_idempotent_in_failure :
  (∀ rs move e,
     (make_move move (run rs ∅)).1 = Raises e →
     (make_move move (run rs ∅)).2 = run rs ∅)
  ∧ (∀ rs0 move resp rs move',
       (make_move move (run rs0 ∅)).1 = Returns resp →
       game_id move' = game_id move →
       position move' = position move →
       let games' := run rs (make_move move (run rs0 ∅)).2 in
       ∃ d, make_move move' games' = (Raises (HTTPException 400 d), games')
            ∧ failure_of (HTTPException 400 d) = Some InvalidState).
Proof.
  destruct empty_wf as [Hwf0 Hkeys0]. split.
  - intros rs move e.
    destruct (run_invariant rs ∅ Hwf0 Hkeys0) as (Hwf & _).
    by apply make_move_failure_changes_nothing.
  - intros rs0 move resp rs move' Hok Hid Hpos games'.
    destruct (run_invariant rs0 ∅ Hwf0 Hkeys0) as (Hwf & Hkeys & _).
    pose proof (handle_wf (MakeMove move) _ Hwf) as Hwf1.
    pose proof (handle_keys (MakeMove move) _ Hwf Hkeys) as Hkeys1.
    simpl in Hwf1, Hkeys1.
    destruct (run_invariant rs _ Hwf1 Hkeys1) as (_ & _ & Hev).
    fold games' in Hev.
    destruct (make_move_state _ move Hwf)
      as [[e Heq]|(g & msg & Hg & Hlegal & Heq)]; rewrite Heq in *;
      [simpl in Hok; discriminate|].
    simpl in Hev.
    destruct Hlegal as (Hno & Hrange & Hc & Hmv).
    pose proof (Hwf _ _ Hg) as Hgwf.
    (* the cell holds the mover's symbol from now on *)
    destruct (Hev (game_id move) (place g (position move) (player move)))
      as (g2 & Hg2 & _ & Hcells); [apply lookup_insert_eq|].
    assert (board g2 !! Z.to_nat (position move) = Some (player move)
            ∧ player move ≠ "") as [Hcell Hne].
    { assert (player move ≠ "") as Hne.
      { rewrite Hmv. by destruct (wf_player g Hgwf) as [-> | ->]. }
      split; [|done]. apply Hcells; [|done].
      assert (board (place g (position move) (player move))
              = <[Z.to_nat (position move) := player move]> (board g)) as ->.
      { unfold place. by destruct (outcome _). }
      apply list_lookup_insert_eq. by apply lookup_lt_Some in Hc. }
    rewrite <-Hid in Hg2. rewrite <-Hpos in Hcell, Hrange.
    destruct (game_over g2) eqn:Hover2.
    + exists "Game is already over". split; [|done].
      by eapply make_move_finished.
    + exists "Position already taken". split; [|done].
      by eapply make_move_occupied.
Qed.

Lemma make_move_idempotent_in_failure_witness :
  let games' :=
    run [NewGame 1700000001 3; MakeMove (mkMoveRequest demo_id 0 "O")]
        (make_move (mkMoveRequest demo_id 4 "X") (run (demo_moves []) ∅)).2 in
  ∃ d, make_move (mkMoveRequest demo_id 4 "O") games'
       = (Raises (HTTPException 400 d), games')
       ∧ failure_of (HTTPException 400 d) = Some InvalidState.
Proof.
  destruct make_move_idempotent_in_failure as [_ Hlater].
  apply (Hlater (demo_moves []) (mkMoveRequest demo_id 4 "X")
           (response_of demo_id
              (mkGameState [""; ""; ""; ""; "X"; ""; ""; ""; ""] "O" None false 0)
              "Player O's turn")
           [NewGame 1700000001 3; MakeMove (mkMoveRequest demo_id 0 "O")]
           (mkMoveRequest demo_id 4 "O")).
  - reflexivity.
  - reflexivity.
  - reflexivity.
Defined.

(** ** Invariants of the dictionary *)

Lemma truthy_not_None (w : option string) : truthy w = true → w ≠ None.
Proof. by destruct w. Qed.

(** A move request keeps the agreement of [winner] and [game_over] in
    any dictionary, also one the service cannot reach and also when
    the request ends in an exception. *)
Lemma make_move_over_iff_winner
    (games : gmap string GameState) (move : MoveRequest) :
  (∀ id g, games !! id = Some g → over_iff_winner g) →
  ∀ id g, (make_move move games).2 !! id = Some g → over_iff_winner g.
Proof.
  intros Hall. unfold make_move.
  destruct (games !! game_id move) as [g0|] eqn:Hg0; [|exact Hall].
  pose proof (Hall _ _ Hg0) as H0.
  destruct (game_over g0) eqn:Hover; [exact Hall|].
  destruct ((position move <? 0) || (position move >? 8)); [exact Hall|].
  destruct (getitem (board g0) (position move)) as [c|e]; [|exact Hall].
  destruct (negb (String.eqb c "")); [exact Hall|].
  destruct (negb (String.eqb (player move) (current_player g0)));
    [exact Hall|].
  unfold apply_checked_move.
  destruct (setitem (board g0) (position move) (player move)) as [b|e];
    [|exact Hall].
  destruct (check_winner b) as [w|e].
  - destruct (truthy w) eqn:Hw; simpl;
      intros id g [[_ <-]|[_ Hg]]%lookup_insert_Some; eauto;
      unfold over_iff_winner in *; simpl.
    split; [done|]. intros _. by apply truthy_not_None.
  - simpl. intros id g [[_ <-]|[_ Hg]]%lookup_insert_Some; eauto.
Qed.

(** C6. Every request (creating a game, reading one, moving) keeps the
    agreement "[winner] is set exactly when [game_over] is true" of
    every game in the dictionary, and so it holds of every game after
    any sequence of requests. *)
Theorem winner_iff_game_over :
  (∀ r games,
     (∀ id g, games !! id = Some g → over_iff_winner g) →
     ∀ id g, (handle r games).2 !! id = Some g → over_iff_winner g)
  ∧ (∀ rs id g,
       run rs ∅ !! id = Some g →
       (winner g ≠ None → game_over g = true)
       ∧ (game_over g = true → winner g ≠ None)).
Proof.
  assert (∀ r games,
     (∀ id g, games !! id = Some g → over_iff_winner g) →
     ∀ id g, (handle r games).2 !! id = Some g → over_iff_winner g) as Hstep.
  { intros [ts now|id0|move] games Hall; simpl.
    - intros id g [[_ <-]|[_ Hg]]%lookup_insert_Some; [|by eauto].
      unfold over_iff_winner; simpl. split; [done|discriminate].
    - unfold get_game. by destruct (games !! id0).
    - by apply make_move_over_iff_winner. }
  split; [exact Hstep|].
  intros rs. induction rs as [|r rs IH] using rev_ind.
  - intros id g Hg. unfold run in Hg. simpl foldl in Hg.
    by rewrite lookup_empty in Hg.
  - intros id g. rewrite run_snoc. intros Hg.
    apply (Hstep r (run rs ∅)) in Hg; [by destruct Hg|].
    intros id' g' Hg'. destruct (IH id' g' Hg'). by split.
Qed.

Lemma winner_iff_game_over_witness :
  let g := mkGameState ["X"; "O"; "O"; ""; "X"; ""; ""; ""; "X"] "X"
             (Some "X") true 0 in
  (winner g ≠ None → game_over g = true)
  ∧ (game_over g = true → winner g ≠ None).
Proof.
  intros g. destruct winner_iff_game_over as [_ Hrun].
  apply (Hrun (demo_moves [(0, "X"); (1, "O"); (4, "X"); (2, "O"); (8, "X")])
           demo_id g).
  vm_compute. reflexivity.
Defined.

(** C7. In every game of a running service the number of [X] cells
    minus the number of [O] cells is 0 or 1, and the board a
    successful move returns satisfies this too. *)
Theorem x_minus_o_is_0_or_1 :
  (∀ rs id g,
     run rs ∅ !! id = Some g →
     count_cells "X" (board g) - count_cells "O" (board g) = 0
     ∨ count_cells "X" (board g) - count_cells "O" (board g) = 1)
  ∧ (∀ rs move resp,
       (make_move move (run rs ∅)).1 = Returns resp →
       (count_cells "X" (resp_board resp) - count_cells "O" (resp_board resp) = 0
        ∨ count_cells "X" (resp_board resp) - count_cells "O" (resp_board resp) = 1)
       ∧ (make_move move (run rs ∅)).2 !! game_id move
         = Some (mkGameState (resp_board resp) (resp_current_player resp)
                   (resp_winner resp) (resp_game_over resp)
                   (default 0 (created_at <$> run rs ∅ !! game_id move)))).
Proof.
  destruct empty_wf as [Hwf0 Hkeys0].
  assert (∀ rs id g, run rs ∅ !! id = Some g →
     count_cells "X" (board g) - count_cells "O" (board g) = 0
     ∨ count_cells "X" (board g) - count_cells "O" (board g) = 1) as Hall.
  { intros rs id g Hg.
    destruct (run_invariant rs ∅ Hwf0 Hkeys0) as (Hwf & _).
    pose proof (wf_diff g (Hwf _ _ Hg)). lia. }
  split; [exact Hall|].
  intros rs move resp Hok.
  destruct (run_invariant rs ∅ Hwf0 Hkeys0) as (Hwf & _).
  assert ((make_move move (run rs ∅)).2 !! game_id move
          = Some (mkGameState (resp_board resp) (resp_current_player resp)
                    (resp_winner resp) (resp_game_over resp)
                    (default 0 (created_at <$> run rs ∅ !! game_id move))))
    as Hstored.
  { destruct (make_move_state _ move Hwf)
      as [[e Heq]|(g & msg & Hg & Hlegal & Heq)]; rewrite Heq in *;
      [simpl in Hok; discriminate|].
    simpl in Hok. injection Hok as <-. simpl. rewrite lookup_insert_eq, Hg.
    simpl. f_equal. unfold place. by destruct (outcome _). }
  split; [|exact Hstored].
  change (make_move move (run rs ∅)).2 with (run [MakeMove move] (run rs ∅))
    in Hstored.
  rewrite <-run_app in Hstored. exact (Hall _ _ _ Hstored).
Qed.

Lemma x_minus_o_is_0_or_1_witness :
  count_cells "X" ["X"; "O"; "O"; ""; "X"; ""; ""; ""; "X"]
  - count_cells "O" ["X"; "O"; "O"; ""; "X"; ""; ""; ""; "X"] = 0
  ∨ count_cells "X" ["X"; "O"; "O"; ""; "X"; ""; ""; ""; "X"]
    - count_cells "O" ["X"; "O"; "O"; ""; "X"; ""; ""; ""; "X"] = 1.
Proof.
  destruct x_minus_o_is_0_or_1 as [Hrun _].
  apply (Hrun (demo_moves [(0, "X"); (1, "O"); (4, "X"); (2, "O"); (8, "X")])
           demo_id
           (mkGameState ["X"; "O"; "O"; ""; "X"; ""; ""; ""; "X"] "X"
              (Some "X") true 0)).
  vm_compute. reflexivity.
Defined.

(** ** The end of a game *)

(** C9 as stated fails on the spelling of the tie outcome: the move
    that fills the last empty cell of this game without completing a
    line returns the winner ['tie'], in lower case; the game is over. *)
Lemma make_move_tie_counterexample :
  let games :=
    run (demo_moves [(0, "X"); (1, "O"); (2, "X"); (4, "O"); (3, "X");
                     (5, "O"); (7, "X"); (6, "O")]) ∅ in
  let move := mkMoveRequest demo_id 8 "X" in
  let g := mkGameState ["X"; "O"; "X"; "X"; "O"; "O"; "O"; "X"; ""] "X"
             None false 0 in
  let b := ["X"; "O"; "X"; "X"; "O"; "O"; "O"; "X"; "X"] in
  games !! demo_id = Some g
  ∧ legal g move
  ∧ <[Z.to_nat (position move) := player move]> (board g) = b
  ∧ no_empty_cell b = true
  ∧ forallb (λ t, negb (line_won b t)) winning_combinations = true
  ∧ resp_winner <$> (make_move move games).1 = Returns (Some "tie")
  ∧ resp_game_over <$> (make_move move games).1 = Returns true
  ∧ resp_winner <$> (make_move move games).1 ≠ Returns (Some "Tie").
Proof.
  split_and!; try (vm_compute; reflexivity).
  - unfold legal; simpl; split_and!; (reflexivity || lia).
  - vm_compute. discriminate.
Qed.

(** C9, amended. When a legal move fills the last empty cell of a
    9-cell board without completing a line, the game is over and its
    winner is the string ['tie'] (lower case), in the dictionary and in
    the response; the player to move is not changed. *)
Theorem make_move_tie
    (games : gmap string GameState) (move : MoveRequest) (g : GameState) :
  games !! game_id move = Some g →
  length (board g) = 9%nat →
  legal g move →
  "" ∉ <[Z.to_nat (position move) := player move]> (board g) →
  (∀ t, t ∈ winning_combinations →
        line_won (<[Z.to_nat (position move) := player move]> (board g)) t
        = false) →
  let g' :=
    {| board := <[Z.to_nat (position move) := player move]> (board g);
       current_player := current_player g;
       winner := Some "tie";
       game_over := true;
       created_at := created_at g |} in
  make_move move games
  = (Returns (response_of (game_id move) g' "It's a tie!"),
     <[game_id move := g']> games).
Proof.
  intros Hg Hlen (Hno & Hpos & Hc & Hmv) Hfull Hlines g'.
  rewrite (make_move_in_range _ _ _ Hg Hno Hpos).
  rewrite (getitem_lookup _ _ "") by (done || lia). simpl.
  destruct (String.eqb_spec (player move) (current_player g)); [|done]. simpl.
  unfold apply_checked_move.
  rewrite setitem_insert by done.
  destruct (check_winner_spec
              (<[Z.to_nat (position move) := player move]> (board g)))
    as (_ & _ & Htie & _); [by rewrite length_insert|].
  by rewrite (Htie Hlines Hfull).
Qed.

Lemma make_move_tie_witness :
  let games :=
    run (demo_moves [(0, "X"); (1, "O"); (2, "X"); (4, "O"); (3, "X");
                     (5, "O"); (7, "X"); (6, "O")]) ∅ in
  let g' := mkGameState ["X"; "O"; "X"; "X"; "O"; "O"; "O"; "X"; "X"] "X"
              (Some "tie") true 0 in
  make_move (mkMoveRequest demo_id 8 "X") games
  = (Returns (response_of demo_id g' "It's a tie!"), <[demo_id := g']> games).
Proof.
  intros games g'.
  apply (make_move_tie games (mkMoveRequest demo_id 8 "X")
           (mkGameState ["X"; "O"; "X"; "X"; "O"; "O"; "O"; "X"; ""] "X"
              None false 0)).
  - vm_compute. reflexivity.
  - reflexivity.
  - unfold legal; simpl; split_and!; (reflexivity || lia).
  - apply no_empty_cell_true. reflexivity.
  - intros t Hin.
    repeat (apply elem_of_cons in Hin as [->|Hin]; [reflexivity|]).
    by apply elem_of_nil in Hin.
Defined.

(** C10. On a running service a move that ends the game
    ([check_winner] returns a symbol or the tie on the updated board)
    leaves [current_player] as it was, the player who made the move;
    when the move wins, [current_player] is the winner. *)
Theorem final_move_keeps_current_player
    (rs : list request) (move : MoveRequest) (g : GameState) (w : string) :
  run rs ∅ !! game_id move = Some g →
  legal g move →
  check_winner (<[Z.to_nat (position move) := player move]> (board g))
  = Returns (Some w) →
  ∃ g' msg,
    make_move move (run rs ∅)
    = (Returns (response_of (game_id move) g' msg),
       <[game_id move := g']> (run rs ∅))
    ∧ current_player g' = current_player g
    ∧ current_player g' = player move
    ∧ winner g' = Some w
    ∧ game_over g' = true
    ∧ (w ≠ "tie" → winner g' = Some (current_player g')).
Proof.
  intros Hg Hlegal Hcheck.
  destruct empty_wf as [Hwf0 Hkeys0].
  destruct (run_invariant rs ∅ Hwf0 Hkeys0) as (Hwf & _).
  pose proof (Hwf _ _ Hg) as Hgwf.
  pose proof (wf_length g Hgwf) as Hlen.
  destruct (make_move_legal _ _ _ Hg Hlen Hlegal) as [msg Hmove].
  pose proof (place_wf g move Hgwf Hlegal) as Hwf'.
  rewrite check_winner_outcome in Hcheck by (by rewrite length_insert).
  injection Hcheck as Hout.
  exists (place g (position move) (player move)), msg.
  split; [exact Hmove|].
  destruct (wf_final _ Hwf') as [_ Hlast].
  { unfold place. by rewrite Hout. }
  revert Hlast. unfold place. rewrite Hout. simpl.
  destruct Hlegal as (_ & _ & _ & Hmv).
  intros [Htie|Hwin]; split_and!; try done; congruence.
Qed.

Lemma final_move_keeps_current_player_witness :
  let games :=
    run (demo_moves [(0, "X"); (1, "O"); (4, "X"); (2, "O")]) ∅ in
  ∃ g' msg,
    make_move (mkMoveRequest demo_id 8 "X") games
    = (Returns (response_of demo_id g' msg), <[demo_id := g']> games)
    ∧ current_player g' = "X"
    ∧ winner g' = Some "X".
Proof.
  intros games.
  destruct (final_move_keeps_current_player
              (demo_moves [(0, "X"); (1, "O"); (4, "X"); (2, "O")])
              (mkMoveRequest demo_id 8 "X")
              (mkGameState ["X"; "O"; "O"; ""; "X"; ""; ""; ""; ""] "X"
                 None false 0)
              "X")
    as (g' & msg & Hmove & _ & Hcp & Hw & _).
  - vm_compute. reflexivity.
  - unfold legal; simpl; split_and!; (reflexivity || lia).
  - reflexivity.
  - exists g', msg. split_and!; [exact Hmove|exact Hcp|exact Hw].
Defined.

(** * Further properties of the handlers *)

(** ** Identifiers and the size of the dictionary *)

Lemma append_inv_head (u s s' : string) : u +:+ s = u +:+ s' → s = s'.
Proof.
  induction u as [|c u IH]; simpl; [done|].
  intros Heq. injection Heq as Heq. by apply IH.
Qed.

(** X1. The identifier [new_game] builds determines the number of
    games and the timestamp it was built from: two calls get the same
    identifier only with the same dictionary size and the same second. *)
Theorem new_game_id_inj
    (games games' : gmap string GameState) (ts ts' : Z) :
  new_game_id games ts = new_game_id games' ts' →
  size games = size games' ∧ ts = ts'.
Proof.
  unfold new_game_id. intros Heq.
  assert (Z.of_nat (size games) + 1 = Z.of_nat (size games') + 1) as Hn.
  { eapply game_key_inj; [| |exact Heq]; lia. }
  split; [lia|].
  rewrite Hn in Heq. simpl in Heq. injection Heq as Heq.
  apply (append_inv_head (pretty (Z.of_nat (size games') + 1))) in Heq.
  simpl in Heq. injection Heq as Heq.
  by apply (inj pretty).
Qed.

Lemma new_game_id_inj_witness :
  size (run (demo_moves []) ∅) = size (run [NewGame 5 5] ∅)
  ∧ 1700000000 = 1700000000.
Proof.
  apply (new_game_id_inj (run (demo_moves []) ∅) (run [NewGame 5 5] ∅)
           1700000000 1700000000).
  reflexivity.
Defined.

Lemma handle_size (r : request) (games : gmap string GameState) :
  games_wf games → keys_wf games →
  size (handle r games).2
  = (size games + count_new_games [r])%nat.
Proof.
  intros Hwf Hkeys. destruct r as [ts now|id|move]; simpl.
  - rewrite map_size_insert_None by (by apply new_game_id_fresh).
    unfold count_new_games; simpl. lia.
  - unfold get_game, count_new_games. destruct (games !! id); simpl; lia.
  - unfold count_new_games; simpl.
    destruct (make_move_state games move Hwf)
      as [[e ->]|(g & msg & Hg & Hlegal & ->)]; simpl; [lia|].
    rewrite map_size_insert_Some by (by eexists). lia.
Qed.

Lemma count_new_games_app (rs rs' : list request) :
  count_new_games (rs ++ rs')
  = (count_new_games rs + count_new_games rs')%nat.
Proof. unfold count_new_games. by rewrite List.filter_app, length_app. Qed.

(** X2. The service never loses or overwrites a game: after any run
    the dictionary holds exactly as many games as [new_game] was
    called, and the identifier of the next new game is not in use. *)
Theorem games_are_never_overwritten (rs : list request) (ts : Z) :
  size (run rs ∅) = count_new_games rs
  ∧ run rs ∅ !! new_game_id (run rs ∅) ts = None.
Proof.
  destruct empty_wf as [Hwf0 Hkeys0]. split.
  - induction rs as [|r rs IH] using rev_ind; [done|].
    destruct (run_invariant rs ∅ Hwf0 Hkeys0) as (Hwf & Hkeys & _).
    rewrite run_snoc, count_new_games_app, handle_size, IH by done. done.
  - destruct (run_invariant rs ∅ Hwf0 Hkeys0) as (_ & Hkeys & _).
    by apply new_game_id_fresh.
Qed.

(** ** Reading back what a handler wrote *)

(** X3. A new game starts with nine empty cells, [X] to move, no
    winner and not over, under an identifier of the form
    [game_<n>_<ts>]; reading that identifier back returns the same
    state, and every game that was in the dictionary under another
    identifier is still there unchanged. This holds in any
    dictionary. *)
Theorem new_game_then_get_game
    (games : gmap string GameState) (ts : Z) (now : datetime) :
  ∃ resp resp',
    (new_game ts now games).1 = Returns resp
    ∧ resp_game_id resp
      = "game_" +:+ pretty (Z.of_nat (size games) + 1) +:+ "_" +:+ pretty ts
    ∧ resp_board resp = [""; ""; ""; ""; ""; ""; ""; ""; ""]
    ∧ resp_current_player resp = "X"
    ∧ resp_winner resp = None
    ∧ resp_game_over resp = false
    ∧ get_game (resp_game_id resp) (new_game ts now games).2
      = (Returns resp', (new_game ts now games).2)
    ∧ same_state resp resp'
    ∧ ∀ id, id ≠ resp_game_id resp →
        (new_game ts now games).2 !! id = games !! id.
Proof.
  eexists _, _. simpl. split; [reflexivity|]. simpl.
  split_and!; try reflexivity.
  - unfold get_game. rewrite lookup_insert_eq. reflexivity.
  - by repeat split.
  - intros id Hne. by rewrite lookup_insert_ne.
Qed.

(** Every successful [make_move] stores a game under the request's key
    and returns that game, in any dictionary. *)
Lemma make_move_Returns_inv
    (games games' : gmap string GameState) (move : MoveRequest)
    (resp : GameResponse) :
  make_move move games = (Returns resp, games') →
  ∃ g', resp = response_of (game_id move) g' (resp_message resp)
        ∧ games' = <[game_id move := g']> games
        ∧ is_Some (games !! game_id move).
Proof.
  unfold make_move.
  destruct (games !! game_id move) as [g0|] eqn:Hg0; [|done].
  destruct (game_over g0); [done|].
  destruct ((position move <? 0) || (position move >? 8)); [done|].
  destruct (getitem (board g0) (position move)) as [c|e]; [|done].
  destruct (negb (String.eqb c "")); [done|].
  destruct (negb (String.eqb (player move) (current_player g0))); [done|].
  unfold apply_checked_move.
  destruct (setitem (board g0) (position move) (player move)) as [b|e];
    [|done].
  destruct (check_winner b) as [w|e]; [|done].
  destruct (truthy w); intros [= <- <-]; eexists; by split_and!.
Qed.

(** X4. What a successful [make_move] returns is what the dictionary
    then holds: a [get_game] on the same key right after it succeeds
    and reports the same board, current player, winner and game-over
    flag, and does not change the dictionary. This holds in any
    dictionary. *)
Theorem make_move_then_get_game
    (games games' : gmap string GameState) (move : MoveRequest)
    (resp : GameResponse) :
  make_move move games = (Returns resp, games') →
  ∃ resp',
    get_game (game_id move) games' = (Returns resp', games')
    ∧ same_state resp resp'
    ∧ resp_message resp' = "Game state retrieved".
Proof.
  intros (g' & Hresp & -> & _)%make_move_Returns_inv.
  unfold get_game. rewrite lookup_insert_eq.
  eexists. split; [reflexivity|]. rewrite Hresp.
  by repeat split.
Qed.

Lemma make_move_then_get_game_witness :
  let games := run (demo_moves []) ∅ in
  let g' := mkGameState ["X"; ""; ""; ""; ""; ""; ""; ""; ""] "O" None false 0 in
  ∃ resp',
    get_game demo_id (<[demo_id := g']> games)
    = (Returns resp', <[demo_id := g']> games)
    ∧ same_state (response_of demo_id g' "Player O's turn") resp'
    ∧ resp_message resp' = "Game state retrieved".
Proof.
  intros games g'.
  apply (make_move_then_get_game games (<[demo_id := g']> games)
           (mkMoveRequest demo_id 0 "X")
           (response_of demo_id g' "Player O's turn")).
  reflexivity.
Defined.

(** X5. [make_move] touches one game only: whatever the request and
    whether it succeeds or fails, every other key of the dictionary
    maps to what it mapped to before, and the request's own key is in
    the dictionary afterwards exactly when it was before. No request
    creates or deletes a game but [new_game]. This holds in any
    dictionary. *)
Theorem make_move_frame
    (games : gmap string GameState) (move : MoveRequest) :
  (∀ id, id ≠ game_id move →
         (make_move move games).2 !! id = games !! id)
  ∧ (is_Some ((make_move move games).2 !! game_id move)
     ↔ is_Some (games !! game_id move)).
Proof.
  assert ((make_move move games).2 = games
          ∨ ∃ g', is_Some (games !! game_id move)
                  ∧ (make_move move games).2 = <[game_id move := g']> games)
    as [->|(g' & Hsome & ->)]; [|done|].
  { unfold make_move.
    destruct (games !! game_id move) as [g0|] eqn:Hg0; [|by left].
    destruct (game_over g0); [by left|].
    destruct ((position move <? 0) || (position move >? 8)); [by left|].
    destruct (getitem (board g0) (position move)) as [c|e]; [|by left].
    destruct (negb (String.eqb c "")); [by left|].
    destruct (negb (String.eqb (player move) (current_player g0)));
      [by left|].
    unfold apply_checked_move.
    destruct (setitem (board g0) (position move) (player move)) as [b|e];
      [|by left].
    destruct (check_winner b) as [w|e]; [destruct (truthy w)|];
      right; eexists; (split; [by eexists|reflexivity]). }
  split.
  - intros id Hne. by rewrite lookup_insert_ne.
  - rewrite lookup_insert_eq. split; [done|by eexists].
Qed.

(** ** What [check_winner] can return on any list *)

Lemma getitem_raises {A} (l : list A) (i : Z) (e : exn) :
  getitem l i = Raises e → e = IndexError.
Proof.
  unfold getitem. destruct (norm_index l i <? 0); [by intros [= <-]|].
  destruct (l !! Z.to_nat (norm_index l i)); [done|by intros [= <-]].
Qed.

Lemma combo_wins_cases (b : list string) (t : Z * Z * Z) :
  combo_wins b t = Raises IndexError
  ∨ combo_wins b t = Returns false
  ∨ combo_wins b t = Returns true
    ∧ ∃ s, getitem b t.1.1 = Returns s ∧ s ≠ "".
Proof.
  destruct t as [[c0 c1] c2]. unfold combo_wins; cbn [fst snd].
  destruct (getitem b c0) as [x|e] eqn:H0; cbn;
    [|apply getitem_raises in H0 as ->; by left].
  destruct (getitem b c1) as [y|e] eqn:H1; cbn;
    [|apply getitem_raises in H1 as ->; by left].
  destruct (String.eqb x y); cbn; [|right; by left].
  destruct (getitem b c2) as [z|e] eqn:H2; cbn;
    [|apply getitem_raises in H2 as ->; by left].
  destruct (String.eqb y z); cbn; [|right; by left].
  destruct (String.eqb_spec x "") as [->|Hne]; cbn.
  - right. by left.
  - right. right. split; [done|]. by exists x.
Qed.

Lemma scan_combinations_cases (b : list string) (combos : list (Z * Z * Z)) :
  scan_combinations b combos = Raises IndexError
  ∨ scan_combinations b combos = Returns None
  ∨ ∃ s, scan_combinations b combos = Returns (Some s) ∧ s ≠ "".
Proof.
  induction combos as [|t rest IH]; [right; by left|].
  cbn [scan_combinations].
  destruct (combo_wins_cases b t) as [->|[->|[-> (s & Hs & Hne)]]]; cbn.
  - by left.
  - exact IH.
  - rewrite Hs. cbn. right. right. by exists s.
Qed.

(** X6. On a list of any length [check_winner] raises nothing but
    [IndexError], and a winner it returns is never the empty string:
    the test [if winner:] in [make_move] is false only for [None]. *)
Theorem check_winner_never_returns_empty (b : list string) :
  (∀ e, check_winner b = Raises e → e = IndexError)
  ∧ (∀ s, check_winner b = Returns (Some s) → s ≠ "")
  ∧ (∀ w, check_winner b = Returns w → truthy w = false → w = None).
Proof.
  assert (∀ s, check_winner b = Returns (Some s) → s ≠ "") as Hne.
  { unfold check_winner.
    destruct (scan_combinations_cases b winning_combinations)
      as [->|[->|(s & -> & Hs)]]; cbn.
    - done.
    - destruct (no_empty_cell b); cbn; [|done]. by intros s [= <-].
    - by intros s' [= <-]. }
  split_and!; [|exact Hne|].
  - unfold check_winner.
    destruct (scan_combinations_cases b winning_combinations)
      as [->|[->|(s & -> & Hs)]]; cbn.
    + by intros e [= <-].
    + by destruct (no_empty_cell b).
    + done.
  - intros [s|] Hw; [|done]. simpl.
    specialize (Hne s Hw). by destruct (String.eqb_spec s "").
Qed.

(** ** The games of a running service *)

(** X7. In a running service every board has nine cells, each [''],
    ['X'] or ['O'], and the player to move is ['X'] or ['O']: no other
    string is ever written. *)
Theorem boards_are_well_formed
    (rs : list request) (id : string) (g : GameState) :
  run rs ∅ !! id = Some g →
  length (board g) = 9%nat
  ∧ (∀ c, c ∈ board g → c = "" ∨ c = "X" ∨ c = "O")
  ∧ (current_player g = "X" ∨ current_player g = "O").
Proof.
  intros Hg. destruct empty_wf as [Hwf0 Hkeys0].
  destruct (run_invariant rs ∅ Hwf0 Hkeys0) as (Hwf & _).
  destruct (Hwf _ _ Hg) as [Hlen Hcells Hpl _ _ _ _ _].
  split_and!; [done| |done].
  by apply Forall_forall.
Qed.

Lemma boards_are_well_formed_witness :
  let g := mkGameState ["X"; "O"; ""; ""; ""; ""; ""; ""; ""] "X" None false 0 in
  length (board g) = 9%nat
  ∧ (∀ c, c ∈ board g → c = "" ∨ c = "X" ∨ c = "O")
  ∧ (current_player g = "X" ∨ current_player g = "O").
Proof.
  intros g.
  apply (boards_are_well_formed (demo_moves [(0, "X"); (1, "O")]) demo_id g).
  vm_compute. reflexivity.
Defined.

(** The outcome of a move request in a dictionary of well-formed
    games. *)
Lemma games_wf_make_move_outcome
    (games : gmap string GameState) (move : MoveRequest) :
  games_wf games →
  (∃ d, (make_move move games).1 = Raises (HTTPException 404 d))
  ∨ (∃ d, (make_move move games).1 = Raises (HTTPException 400 d))
  ∨ (∃ resp, (make_move move games).1 = Returns resp).
Proof.
  intros Hwf.
  destruct (games !! game_id move) as [g|] eqn:Hg.
  - pose proof (wf_length g (Hwf _ _ Hg)) as Hlen.
    destruct (make_move_cases games move g Hg Hlen) as [Hlegal|(d & -> & _)].
    + destruct (make_move_legal games move g Hg Hlen Hlegal) as [msg ->].
      right. right. by eexists.
    + right. left. by exists d.
  - rewrite make_move_unknown by done. left. by eexists.
Qed.

(** X8. A running service never fails with an [IndexError]: every
    request returns a response or is refused with the 404 or a 400 of
    the handlers. *)
Theorem service_raises_only_http_errors (rs : list request) (r : request) :
  match (handle r (run rs ∅)).1 with
  | Returns _ => True
  | Raises (HTTPException code _) => code = 404 ∨ code = 400
  | Raises IndexError => False
  end.
Proof.
  destruct empty_wf as [Hwf0 Hkeys0].
  destruct (run_invariant rs ∅ Hwf0 Hkeys0) as (Hwf & _).
  destruct r as [ts now|id|move]; simpl.
  - done.
  - unfold get_game. destruct (run rs ∅ !! id); simpl; auto.
  - destruct (games_wf_make_move_outcome (run rs ∅) move Hwf)
      as [(d & ->)|[(d & ->)|(resp & ->)]]; simpl; auto.
Qed.

Lemma place_created_at (g : GameState) (p : Z) (pl : string) :
  created_at (place g p pl) = created_at g.
Proof. unfold place. by destruct (outcome _). Qed.

Lemma handle_keeps_games (r : request) (games : gmap string GameState)
    (id : string) (g : GameState) :
  games_wf games → keys_wf games →
  games !! id = Some g →
  ∃ g', (handle r games).2 !! id = Some g'
        ∧ created_at g' = created_at g ∧ game_evolves g g'.
Proof.
  intros Hwf Hkeys Hg.
  assert (∃ g', games !! id = Some g'
                ∧ created_at g' = created_at g ∧ game_evolves g g') as Hsame.
  { exists g. split; [done|]. split; [done|apply game_evolves_refl]. }
  destruct r as [ts now|id0|move]; simpl.
  - rewrite lookup_insert_ne; [done|]. intros <-.
    by rewrite new_game_id_fresh in Hg.
  - unfold get_game. by destruct (games !! id0).
  - destruct (make_move_state games move Hwf)
      as [[e ->]|(g0 & msg & Hg0 & Hlegal & ->)]; simpl; [done|].
    destruct (decide (game_id move = id)) as [<-|Hne].
    + rewrite lookup_insert_eq. assert (g0 = g) as -> by congruence.
      eexists. split; [done|].
      split; [apply place_created_at|by apply place_evolves].
    + by rewrite lookup_insert_ne.
Qed.

(** X9. A game of a running service is never removed, its creation
    time never changes, and a cell that holds a symbol keeps that
    symbol through every later request: there is no undo. *)
Theorem cells_never_revert
    (rs0 rs : list request) (id : string) (g : GameState) :
  run rs0 ∅ !! id = Some g →
  ∃ g', run rs (run rs0 ∅) !! id = Some g'
        ∧ created_at g' = created_at g
        ∧ ∀ i c, board g !! i = Some c → c ≠ "" → board g' !! i = Some c.
Proof.
  intros Hg. destruct empty_wf as [Hwf0 Hkeys0].
  destruct (run_invariant rs0 ∅ Hwf0 Hkeys0) as (Hwf & Hkeys & _).
  induction rs as [|r rs IH] using rev_ind.
  - exists g. by split_and!.
  - destruct IH as (g1 & Hg1 & Hc1 & Hcells1).
    destruct (run_invariant rs _ Hwf Hkeys) as (Hwf1 & Hkeys1 & _).
    rewrite run_snoc.
    destruct (handle_keeps_games r _ id g1 Hwf1 Hkeys1 Hg1)
      as (g2 & Hg2 & Hc2 & _ & Hcells2).
    exists g2. split_and!; [done|congruence|].
    intros i c Hi Hne. apply Hcells2; [|done]. by apply Hcells1.
Qed.

Lemma cells_never_revert_witness :
  let games := run (demo_moves [(4, "X")]) ∅ in
  ∃ g', run [NewGame 1700000005 9; MakeMove (mkMoveRequest demo_id 0 "O")]
            games !! demo_id = Some g'
        ∧ created_at g' = 0
        ∧ ∀ i c, [""; ""; ""; ""; "X"; ""; ""; ""; ""] !! i = Some c →
                 c ≠ "" → board g' !! i = Some c.
Proof.
  intros games.
  apply (cells_never_revert (demo_moves [(4, "X")])
           [NewGame 1700000005 9; MakeMove (mkMoveRequest demo_id 0 "O")]
           demo_id
           (mkGameState [""; ""; ""; ""; "X"; ""; ""; ""; ""] "O" None false 0)).
  vm_compute. reflexivity.
Defined.

(** X10. Whose turn it is can be read off the board of an unfinished
    game of a running service: [X] is to move exactly when the board
    holds as many [X] as [O], and [O] exactly when it holds one more
    [X]. *)
Theorem turn_follows_the_board
    (rs : list request) (id : string) (g : GameState) :
  run rs ∅ !! id = Some g →
  game_over g = false →
  (current_player g = "X"
   ∧ count_cells "X" (board g) = count_cells "O" (board g))
  ∨ (current_player g = "O"
     ∧ count_cells "X" (board g) = count_cells "O" (board g) + 1).
Proof.
  intros Hg Hno. destruct empty_wf as [Hwf0 Hkeys0].
  destruct (run_invariant rs ∅ Hwf0 Hkeys0) as (Hwf & _).
  pose proof (Hwf _ _ Hg) as Hgwf.
  pose proof (wf_turn g Hgwf Hno) as Hturn.
  destruct (wf_player g Hgwf) as [E|E]; rewrite E in *; simpl in Hturn.
  - left. split; [done|lia].
  - right. split; [done|lia].
Qed.

Lemma turn_follows_the_board_witness :
  let g := mkGameState ["X"; "O"; ""; ""; "X"; ""; ""; ""; ""] "O" None false 0 in
  (current_player g = "X"
   ∧ count_cells "X" (board g) = count_cells "O" (board g))
  ∨ (current_player g = "O"
     ∧ count_cells "X" (board g) = count_cells "O" (board g) + 1).
Proof.
  intros g.
  apply (turn_follows_the_board
           (demo_moves [(0, "X"); (1, "O"); (4, "X")]) demo_id g).
  - vm_compute. reflexivity.
  - reflexivity.
Defined.

(** X11. An unfinished game of a running service can always go on: its
    board has an empty cell, and the move of the current player into
    any empty cell is accepted. A full board means the game is over. *)
Theorem unfinished_game_has_a_move
    (rs : list request) (id : string) (g : GameState) :
  run rs ∅ !! id = Some g →
  game_over g = false →
  (∃ p, 0 ≤ p ≤ 8 ∧ board g !! Z.to_nat p = Some "")
  ∧ ∀ p, 0 ≤ p ≤ 8 → board g !! Z.to_nat p = Some "" →
      ∃ resp,
        (make_move (mkMoveRequest id p (current_player g)) (run rs ∅)).1
        = Returns resp
        ∧ resp_board resp !! Z.to_nat p = Some (current_player g).
Proof.
  intros Hg Hno. destruct empty_wf as [Hwf0 Hkeys0].
  destruct (run_invariant rs ∅ Hwf0 Hkeys0) as (Hwf & _).
  pose proof (Hwf _ _ Hg) as Hgwf.
  pose proof (wf_length g Hgwf) as Hlen.
  split.
  - pose proof (wf_running g Hgwf Hno) as Hout. unfold outcome in Hout.
    destruct (find (line_won (board g)) winning_combinations); [done|].
    destruct (no_empty_cell (board g)) eqn:Hfull; [done|].
    assert ("" ∈ board g) as Hin.
    { destruct (decide ("" ∈ board g)) as [?|Hnot]; [done|].
      apply no_empty_cell_true in Hnot. congruence. }
    apply list_elem_of_lookup in Hin as [i Hi].
    pose proof (lookup_lt_Some _ _ _ Hi) as Hlt.
    exists (Z.of_nat i). rewrite Nat2Z.id. split; [lia|done].
  - intros p Hp Hc.
    destruct (make_move_legal (run rs ∅) (mkMoveRequest id p (current_player g)) g)
      as [msg ->];
      [done|done|unfold legal; simpl; split_and!; (done || lia)|].
    eexists. split; [reflexivity|]. simpl.
    assert (board (place g p (current_player g))
            = <[Z.to_nat p := current_player g]> (board g)) as ->.
    { unfold place. by destruct (outcome _). }
    apply list_lookup_insert_eq. by apply lookup_lt_Some in Hc.
Qed.

Lemma unfinished_game_has_a_move_witness :
  let games := run (demo_moves [(0, "X"); (1, "O"); (4, "X")]) ∅ in
  ∃ resp,
    (make_move (mkMoveRequest demo_id 8 "O") games).1 = Returns resp
    ∧ resp_board resp !! 8%nat = Some "O".
Proof.
  intros games.
  destruct (unfinished_game_has_a_move
              (demo_moves [(0, "X"); (1, "O"); (4, "X")]) demo_id
              (mkGameState ["X"; "O"; ""; ""; "X"; ""; ""; ""; ""] "O"
                 None false 0))
    as [_ Hmove].
  - vm_compute. reflexivity.
  - reflexivity.
  - apply (Hmove 8); [lia|reflexivity].
Defined.

(** ** The response of a move *)

Lemma make_move_legal_message games move g :
  games !! game_id move = Some g → length (board g) = 9%nat →
  legal g move →
  make_move move games
  = (Returns (response_of (game_id move)
                (place g (position move) (player move))
                (status_message (place g (position move) (player move)))),
     <[game_id move := place g (position move) (player move)]> games).
Proof.
  intros H Hlen (Hover & Hpos & Hc & Hpl).
  rewrite (make_move_in_range _ _ _ H Hover Hpos).
  rewrite (getitem_lookup _ _ "") by (done || lia). simpl.
  destruct (String.eqb_spec (player move) (current_player g)); [|done].
  simpl. unfold apply_checked_move.
  rewrite setitem_insert by done.
  rewrite check_winner_outcome by (by rewrite length_insert).
  rewrite truthy_outcome. unfold place, status_message.
  destruct (outcome (<[Z.to_nat (position move) := player move]> (board g)));
    simpl; [done|]. by rewrite Hover.
Qed.

(** X12. The message of a successful move on a running service agrees
    with the state it returns and names the right player: ["It's a
    tie!"] for a tie, ["Player p wins!"] with [p] the player who just
    moved when the game is won, and otherwise ["Player q's turn"] with
    [q] the other player. It is one of five strings. *)
Theorem make_move_message
    (rs : list request) (move : MoveRequest) (resp : GameResponse) :
  (make_move move (run rs ∅)).1 = Returns resp →
  resp_message resp
  = (if resp_game_over resp then
       if bool_decide (resp_winner resp = Some "tie") then "It's a tie!"
       else "Player " +:+ player move +:+ " wins!"
     else "Player " +:+ other_player (player move) +:+ "'s turn")
  ∧ resp_message resp
    ∈ ["It's a tie!"; "Player X wins!"; "Player O wins!";
       "Player X's turn"; "Player O's turn"].
Proof.
  intros Hok. destruct empty_wf as [Hwf0 Hkeys0].
  destruct (run_invariant rs ∅ Hwf0 Hkeys0) as (Hwf & _).
  destruct (make_move_state _ move Hwf)
    as [[e Heq]|(g & msg & Hg & Hlegal & _)];
    [rewrite Heq in Hok; simpl in Hok; discriminate|].
  pose proof (Hwf _ _ Hg) as Hgwf.
  rewrite (make_move_legal_message _ _ _ Hg (wf_length g Hgwf) Hlegal) in Hok.
  simpl in Hok. injection Hok as <-.
  pose proof (place_wf g move Hgwf Hlegal) as Hwf'.
  destruct Hlegal as (Hno & _ & _ & Hmv).
  assert (player move = "X" ∨ player move = "O") as Hpl.
  { rewrite Hmv. apply (wf_player g Hgwf). }
  revert Hwf'. unfold place, status_message.
  destruct (outcome (<[Z.to_nat (position move) := player move]> (board g)))
    as [w|]; simpl; intros Hwf'.
  - destruct (wf_final _ Hwf' eq_refl) as [_ [Hw|Hw]]; simpl in Hw.
    + injection Hw as ->. split; [done|]. by left.
    + injection Hw as ->. rewrite <-Hmv.
      destruct Hpl as [-> | ->]; (split; [done|]); by repeat constructor.
  - rewrite Hno, <-Hmv.
    destruct Hpl as [-> | ->]; (split; [done|]); by repeat constructor.
Qed.

Lemma make_move_message_witness :
  "Player X wins!"
  = (if true then
       if bool_decide (Some "X" = Some "tie") then "It's a tie!"
       else "Player " +:+ "X" +:+ " wins!"
     else "Player " +:+ other_player "X" +:+ "'s turn")
  ∧ "Player X wins!"
    ∈ ["It's a tie!"; "Player X wins!"; "Player O wins!";
       "Player X's turn"; "Player O's turn"].
Proof.
  apply (make_move_message
           (demo_moves [(0, "X"); (1, "O"); (4, "X"); (2, "O")])
           (mkMoveRequest demo_id 8 "X")
           (response_of demo_id
              (mkGameState ["X"; "O"; "O"; ""; "X"; ""; ""; ""; "X"] "X"
                 (Some "X") true 0)
              "Player X wins!")).
  vm_compute. reflexivity.
Defined.

(** X13. The recorded result of a finished game of a running service
    is justified by its board: the winner is ['tie'] only on a full
    board without a won line, and otherwise it is ['X'] or ['O'] and a
    row, column or diagonal is filled with it. *)
Theorem winner_is_justified
    (rs : list request) (id : string) (g : GameState) :
  run rs ∅ !! id = Some g →
  game_over g = true →
  (winner g = Some "tie"
   ∧ ("" ∉ board g)
   ∧ ∀ t, t ∈ winning_combinations → line_won (board g) t = false)
  ∨ (∃ s t, winner g = Some s ∧ (s = "X" ∨ s = "O")
            ∧ t ∈ winning_combinations ∧ line_filled (board g) t s).
Proof.
  intros Hg Hover. destruct empty_wf as [Hwf0 Hkeys0].
  destruct (run_invariant rs ∅ Hwf0 Hkeys0) as (Hwf & _).
  pose proof (Hwf _ _ Hg) as Hgwf.
  destruct (wf_final g Hgwf Hover) as [Hw _].
  pose proof (proj1 (wf_over g Hgwf) Hover) as Hsome.
  unfold outcome in Hw.
  destruct (find (line_won (board g)) winning_combinations) as [t|] eqn:E.
  - right.
    apply find_somewhere in E as (pre & post & Hsplit & Hwon & _).
    apply line_won_filled in Hwon as (s & Hs & Hfill).
    exists s, t. split_and!.
    + rewrite Hw. by destruct Hfill as [-> _].
    + destruct Hfill as [Hcell _]. unfold cell in Hcell.
      destruct (board g !! Z.to_nat t.1.1) as [c|] eqn:Hc; simpl in Hcell;
        [subst c|congruence].
      apply list_elem_of_lookup_2 in Hc.
      pose proof (proj1 (Forall_forall _ _) (wf_cells g Hgwf) s Hc) as Hsym.
      destruct Hsym as [?|?]; [congruence|done].
    + rewrite Hsplit. apply elem_of_app. right. left.
    + done.
  - left. destruct (no_empty_cell (board g)) eqn:Hfull; [|congruence].
    split_and!; [done|by apply no_empty_cell_true|].
    intros t Hin. apply list_elem_of_In in Hin.
    exact (find_none _ _ E t Hin).
Qed.

Lemma winner_is_justified_witness :
  let g := mkGameState ["X"; "O"; "O"; ""; "X"; ""; ""; ""; "X"] "X"
             (Some "X") true 0 in
  (winner g = Some "tie"
   ∧ ("" ∉ board g)
   ∧ ∀ t, t ∈ winning_combinations → line_won (board g) t = false)
  ∨ (∃ s t, winner g = Some s ∧ (s = "X" ∨ s = "O")
            ∧ t ∈ winning_combinations ∧ line_filled (board g) t s).
Proof.
  intros g.
  apply (winner_is_justified
           (demo_moves [(0, "X"); (1, "O"); (4, "X"); (2, "O"); (8, "X")])
           demo_id g).
  - vm_compute. reflexivity.
  - reflexivity.
Defined.

(** X14. On a running service only ['X'] and ['O'] can move: a move
    request with any other player string is refused with an HTTP error
    and changes nothing. *)
Theorem only_x_and_o_can_move (rs : list request) (move : MoveRequest) :
  player move ≠ "X" → player move ≠ "O" →
  ∃ code d,
    make_move move (run rs ∅) = (Raises (HTTPException code d), run rs ∅).
Proof.
  intros HX HO. destruct empty_wf as [Hwf0 Hkeys0].
  destruct (run_invariant rs ∅ Hwf0 Hkeys0) as (Hwf & _).
  destruct (make_move_state _ move Hwf)
    as [[e Heq]|(g & msg & Hg & (_ & _ & _ & Hmv) & _)].
  - by exists e.1, e.2.
  - exfalso. destruct (wf_player g (Hwf _ _ Hg)) as [E|E]; congruence.
Qed.

Lemma only_x_and_o_can_move_witness :
  ∃ code d,
    make_move (mkMoveRequest demo_id 0 "x") (run (demo_moves []) ∅)
    = (Raises (HTTPException code d), run (demo_moves []) ∅).
Proof.
  apply (only_x_and_o_can_move (demo_moves []) (mkMoveRequest demo_id 0 "x"));
    discriminate.
Defined.

(** ** Playing a game from its creation *)

(** X15. A game that [new_game] created stays available: after any
    later requests [get_game] on its identifier succeeds and reports
    that identifier, and no move on it is refused as unknown. *)
Theorem created_game_stays_available
    (rs0 rs : list request) (ts : Z) (now : datetime) :
  let id := new_game_id (run rs0 ∅) ts in
  let games := run rs (new_game ts now (run rs0 ∅)).2 in
  (∃ resp, get_game id games = (Returns resp, games)
           ∧ resp_game_id resp = id)
  ∧ ∀ move, game_id move = id →
      (make_move move games).1 ≠ Raises (HTTPException 404 "Game not found").
Proof.
  intros id games. destruct empty_wf as [Hwf0 Hkeys0].
  destruct (run_invariant (rs0 ++ [NewGame ts now]) ∅ Hwf0 Hkeys0)
    as (Hwf & Hkeys & _).
  rewrite run_snoc in Hwf, Hkeys.
  change (handle (NewGame ts now) (run rs0 ∅)).2
    with (new_game ts now (run rs0 ∅)).2 in Hwf, Hkeys.
  destruct (run_invariant rs _ Hwf Hkeys) as (Hwf' & _ & Hev).
  fold games in Hev, Hwf'.
  destruct (Hev id (create_new_game now)) as (g & Hg & _);
    [apply lookup_insert_eq|].
  split.
  - unfold get_game. rewrite Hg. by eexists.
  - intros move <-.
    pose proof (wf_length g (Hwf' _ _ Hg)) as Hlen.
    destruct (make_move_cases games move g Hg Hlen) as [Hlegal|(d & -> & _)];
      [|done].
    by destruct (make_move_legal games move g Hg Hlen Hlegal) as [msg ->].
Qed.

(** X16. [X] moves first. Right after [new_game], in any dictionary, a
    move of [O] into a cell of the new game is refused with "Not your
    turn", and a move of [X] into any cell 0..8 is accepted: the board
    holds that one [X], [O] is to move and the game goes on. *)
Theorem x_moves_first
    (games : gmap string GameState) (ts : Z) (now : datetime) (p : Z) :
  0 ≤ p ≤ 8 →
  let id := new_game_id games ts in
  let fresh := (new_game ts now games).2 in
  let g1 := {| board := <[Z.to_nat p := "X"]> (replicate 9 "");
               current_player := "O"; winner := None; game_over := false;
               created_at := now |} in
  make_move (mkMoveRequest id p "O") fresh
  = (Raises (HTTPException 400 "Not your turn"), fresh)
  ∧ make_move (mkMoveRequest id p "X") fresh
    = (Returns (response_of id g1 "Player O's turn"), <[id := g1]> fresh).
Proof.
  intros Hp id fresh g1.
  assert (fresh !! id = Some (create_new_game now)) as Hg
    by apply lookup_insert_eq.
  assert (replicate 9 "" !! Z.to_nat p = Some "") as Hc.
  { apply lookup_replicate_2. lia. }
  split.
  - by apply (make_move_wrong_turn fresh (mkMoveRequest id p "O") _ Hg).
  - rewrite (make_move_legal_message fresh (mkMoveRequest id p "X") _ Hg);
      [|done|by unfold legal].
    assert (p = 0 ∨ p = 1 ∨ p = 2 ∨ p = 3 ∨ p = 4 ∨ p = 5 ∨ p = 6 ∨ p = 7
            ∨ p = 8) as Hcases by lia.
    subst g1. simpl.
    repeat (destruct Hcases as [->|Hcases]; [reflexivity|]).
    by subst p.
Qed.

Lemma x_moves_first_witness :
  let id := new_game_id ∅ 1700000000 in
  let fresh := (new_game 1700000000 0 ∅).2 in
  let g1 := mkGameState [""; ""; ""; ""; "X"; ""; ""; ""; ""] "O" None false 0 in
  make_move (mkMoveRequest id 4 "O") fresh
  = (Raises (HTTPException 400 "Not your turn"), fresh)
  ∧ make_move (mkMoveRequest id 4 "X") fresh
    = (Returns (response_of id g1 "Player O's turn"), <[id := g1]> fresh).
Proof.
  apply (x_moves_first ∅ 1700000000 0 4). lia.
Defined.

(** ** One winner at most *)

Lemma place_lines_agree (g : GameState) (move : MoveRequest) :
  game_wf g → legal g move →
  lines_agree (place g (position move) (player move)).
Proof.
  intros Hgwf Hlegal t s Hin Hs Hfill.
  pose proof (wf_length g Hgwf) as Hlen.
  destruct Hlegal as (Hno & Hpos & Hc & Hmv).
  pose proof (wf_running g Hgwf Hno) as Hrun.
  assert (board (place g (position move) (player move))
          = <[Z.to_nat (position move) := player move]> (board g)) as Hb.
  { unfold place.
    by destruct (outcome (<[Z.to_nat (position move) := player move]> (board g))). }
  rewrite Hb in Hfill.
  set (b' := <[Z.to_nat (position move) := player move]> (board g)) in *.
  assert (line_won b' t = true) as Hwon by (apply line_won_filled; eauto).
  (* the line passes through the new cell *)
  assert (s = player move) as ->.
  { destruct (proj1 (Forall_forall _ _) winning_combinations_on_grid t Hin)
      as (H0 & H1 & H2).
    pose proof (outcome_None_no_line (board g) t Hrun Hin) as Hold.
    assert (cell b' (position move) = player move) as Hcp
      by (apply cell_insert_eq; lia).
    destruct Hfill as (Hf0 & Hf1 & Hf2).
    destruct (decide (t.1.1 = position move)) as [E0|N0]; [congruence|].
    destruct (decide (t.1.2 = position move)) as [E1|N1]; [congruence|].
    destruct (decide (t.2 = position move)) as [E2|N2]; [congruence|].
    exfalso. unfold b' in Hf0, Hf1, Hf2.
    rewrite cell_insert_ne in Hf0, Hf1, Hf2 by lia.
    assert (line_won (board g) t = true); [|congruence].
    apply line_won_filled. by exists s. }
  (* so the scan finds a line and the game ends *)
  unfold place. fold b'. unfold outcome.
  destruct (find (line_won b') winning_combinations) eqn:E; simpl; [done|].
  apply list_elem_of_In in Hin.
  rewrite (find_none _ _ E t Hin) in Hwon. done.
Qed.

Lemma handle_lines_agree (r : request) (games : gmap string GameState) :
  games_wf games →
  (∀ id g, games !! id = Some g → lines_agree g) →
  ∀ id g, (handle r games).2 !! id = Some g → lines_agree g.
Proof.
  intros Hwf Hall. destruct r as [ts now|id0|move]; simpl.
  - intros id g [[_ <-]|[_ Hg]]%lookup_insert_Some; [|by eauto].
    intros t s Hin Hs (Hf0 & _). exfalso. apply Hs. rewrite <-Hf0.
    destruct (proj1 (Forall_forall _ _) winning_combinations_on_grid t Hin)
      as (H0 & _).
    unfold cell. change (board (create_new_game now)) with (replicate 9 "").
    rewrite lookup_replicate_2 by lia. done.
  - unfold get_game. by destruct (games !! id0).
  - destruct (make_move_state games move Hwf)
      as [[e ->]|(g0 & msg & Hg0 & Hlegal & ->)]; [done|]. simpl.
    intros id g [[_ <-]|[_ Hg]]%lookup_insert_Some; [|by eauto].
    apply place_lines_agree; [by eapply Hwf|done].
Qed.

Lemma run_lines_agree (rs : list request) (id : string) (g : GameState) :
  run rs ∅ !! id = Some g → lines_agree g.
Proof.
  destruct empty_wf as [Hwf0 Hkeys0].
  revert id g. induction rs as [|r rs IH] using rev_ind.
  - intros id g Hg. unfold run in Hg. simpl foldl in Hg.
    by rewrite lookup_empty in Hg.
  - intros id g. rewrite run_snoc.
    destruct (run_invariant rs ∅ Hwf0 Hkeys0) as (Hwf & _).
    by apply handle_lines_agree.
Qed.

(** X17. The two players never both have a line. On every board of a
    running service, if a row, column or diagonal is filled with one
    symbol then the game is over, that symbol is the recorded winner,
    [check_winner] returns it, and every other filled line holds the
    same symbol. *)
Theorem filled_line_is_the_winner
    (rs : list request) (id : string) (g : GameState)
    (t : Z * Z * Z) (s : string) :
  run rs ∅ !! id = Some g →
  t ∈ winning_combinations → s ≠ "" → line_filled (board g) t s →
  game_over g = true
  ∧ winner g = Some s
  ∧ check_winner (board g) = Returns (Some s)
  ∧ ∀ t' s', t' ∈ winning_combinations → s' ≠ "" →
             line_filled (board g) t' s' → s' = s.
Proof.
  intros Hg Hin Hs Hfill. destruct empty_wf as [Hwf0 Hkeys0].
  destruct (run_invariant rs ∅ Hwf0 Hkeys0) as (Hwf & _).
  pose proof (Hwf _ _ Hg) as Hgwf.
  pose proof (run_lines_agree rs id g Hg) as Hagree.
  destruct (Hagree t s Hin Hs Hfill) as [Hover ->].
  assert (outcome (board g) = Some (current_player g)) as Hout.
  { unfold outcome.
    destruct (find (line_won (board g)) winning_combinations) as [t0|] eqn:E.
    - apply find_somewhere in E as (pre & post & Hsplit & Hwon & _).
      apply line_won_filled in Hwon as (s0 & Hs0 & Hfill0).
      assert (t0 ∈ winning_combinations) as Hin0.
      { rewrite Hsplit. apply elem_of_app. right. left. }
      destruct (Hagree t0 s0 Hin0 Hs0 Hfill0) as [_ <-].
      by destruct Hfill0 as [-> _].
    - apply list_elem_of_In in Hin.
      pose proof (find_none _ _ E t Hin) as Hnot.
      assert (line_won (board g) t = true); [|congruence].
      apply line_won_filled. eauto. }
  split_and!.
  - done.
  - destruct (wf_final g Hgwf Hover) as [-> _]. done.
  - rewrite check_winner_outcome by apply (wf_length g Hgwf). by rewrite Hout.
  - intros t' s' Hin' Hs' Hfill'.
    by destruct (Hagree t' s' Hin' Hs' Hfill') as [_ ->].
Qed.

Lemma filled_line_is_the_winner_witness :
  let g := mkGameState ["X"; "O"; "O"; ""; "X"; ""; ""; ""; "X"] "X"
             (Some "X") true 0 in
  game_over g = true
  ∧ winner g = Some "X"
  ∧ check_winner (board g) = Returns (Some "X")
  ∧ ∀ t' s', t' ∈ winning_combinations → s' ≠ "" →
             line_filled (board g) t' s' → s' = "X".
Proof.
  intros g.
  apply (filled_line_is_the_winner
           (demo_moves [(0, "X"); (1, "O"); (4, "X"); (2, "O"); (8, "X")])
           demo_id g (0, 4, 8) "X").
  - vm_compute. reflexivity.
  - unfold winning_combinations. by repeat constructor.
  - discriminate.
  - by repeat split.
Defined.
